(** * PyAutoLens: fitting, mapping-matrix convolution and hyper phases

    A shallow embedding of

    - [src/analysis/fitting.py]            (likelihood and evidence terms),
    - [autolens/inversion/convolution.py]  (blurring of a mapping matrix),
    - [autolens/pipeline/phase/phase_extensions/hyper_phase.py]

    The arithmetic the source performs on Python floats is an interface
    ([Float64]); every law a proof needs about it is a named hypothesis of the
    statement.  Three number systems implement the interface: the binary64
    floats of the kernel (the arithmetic of a Python [float]), the exact
    rationals [Qc] (exact arithmetic that computes), and the real numbers
    (exact arithmetic with [ln] and [PI]). *)

From Stdlib Require Import ZArith QArith Qcanon Lia Floats.
From Stdlib Require Reals.
From stdpp Require Import base option list gmap strings.

(** ** Numbers *)

Module Numeric.

(** The operations of the source on float64 values.  [lit q] is the value
    of the numeric literal [q]; [fsqr x] is [x ** 2.0]; [fgt x y] is the
    Python test [x > y] and [fle x y] the test [x <= y]. *)
Class Float64 (F : Type) : Type := {
  lit  : Q → F;
  fadd : F → F → F;
  fsub : F → F → F;
  fneg : F → F;
  fmul : F → F → F;
  fdiv : F → F → F;
  fsqr : F → F;
  fgt  : F → F → bool;
  fle  : F → F → bool
}.

(** [a - b] and [a + (-b)] agree (true of IEEE-754 as well). *)
Class SubIsAddNeg (F : Type) `{Float64 F} : Prop :=
  fsub_fneg : ∀ a b : F, fsub a b = fadd a (fneg b).

(** The comparison with zero that [convolve_matrix_jit] performs: zero is
    not positive, and nothing that is [<= 0] is [> 0]. *)
Class ZeroTest (F : Type) `{Float64 F} : Prop := {
  fgt_zero : fgt (lit 0) (lit 0) = false;
  fle_not_fgt : ∀ x : F, fle x (lit 0) = true → fgt x (lit 0) = false
}.

(** Exact arithmetic: the numbers form a commutative semiring.  Floating
    point only approximates these laws; statements that assume them hold
    up to rounding on the real program. *)
Class ExactSemiring (F : Type) `{Float64 F} : Prop := {
  fadd_comm : ∀ a b : F, fadd a b = fadd b a;
  fadd_assoc : ∀ a b c : F, fadd a (fadd b c) = fadd (fadd a b) c;
  fadd_0_l : ∀ a : F, fadd (lit 0) a = a;
  fmul_comm : ∀ a b : F, fmul a b = fmul b a;
  fmul_1_l : ∀ a : F, fmul (lit 1) a = a;
  fmul_0_l : ∀ a : F, fmul (lit 0) a = lit 0;
  fmul_add_distr_r : ∀ a b c : F, fmul (fadd a b) c = fadd (fmul a c) (fmul b c);
  one_positive : fgt (lit 1) (lit 0) = true
}.

(** The exact rationals as an executable model. *)
#[export] Instance Qc_float : Float64 Qc := {|
  lit := Q2Qc;
  fadd := Qcplus;
  fsub := Qcminus;
  fneg := Qcopp;
  fmul := Qcmult;
  fdiv := Qcdiv;
  fsqr := λ x, Qcmult x x;
  fgt := λ x y, match Qccompare x y with Gt => true | _ => false end;
  fle := λ x y, match Qccompare x y with Gt => false | _ => true end
|}.

(** IEEE-754 binary64: the literal [q] is the float nearest to it. *)
Definition float_of_Z (z : Z) : float :=
  SF2Prim (binary_normalize prec emax z 0 false).

Definition float_lit (q : Q) : float :=
  PrimFloat.div (float_of_Z (Qnum q)) (float_of_Z (Zpos (Qden q))).

#[export] Instance binary64 : Float64 float := {|
  lit := float_lit;
  fadd := PrimFloat.add;
  fsub := PrimFloat.sub;
  fneg := PrimFloat.opp;
  fmul := PrimFloat.mul;
  fdiv := PrimFloat.div;
  fsqr := λ x, PrimFloat.mul x x;
  fgt := λ x y, PrimFloat.ltb y x;
  fle := PrimFloat.leb
|}.

(** The real numbers: what the formulas of the specification denote. *)
#[export] Instance real_numbers : Float64 Rdefinitions.R := {|
  lit := Rdefinitions.Q2R;
  fadd := Rdefinitions.Rplus;
  fsub := Rdefinitions.Rminus;
  fneg := Rdefinitions.Ropp;
  fmul := Rdefinitions.Rmult;
  fdiv := Rdefinitions.Rdiv;
  fsqr := λ x, Rdefinitions.Rmult x x;
  fgt := λ x y, if RIneq.Rlt_dec y x then true else false;
  fle := λ x y, if RIneq.Rle_dec x y then true else false
|}.

End Numeric.
Export Numeric.

(** ** Exceptions *)

Module Exn.

(** The exceptions the modelled code can raise. *)
Inductive exn : Type :=
  | ValueError        (* numpy: operands could not be broadcast together *)
  | IndexError        (* an index outside an array *)
  | InversionError    (* a matrix that is not positive-definite *)
  | AttributeError    (* an attribute the object does not have *)
  | NotImplementedError
  | RecursionError    (* the interpreter's recursion limit *)
  | PhaseError.       (* an exception of a wrapped phase *)

Inductive result (A : Type) : Type :=
  | Ok (a : A)
  | Raise (e : exn).
Arguments Ok {A} a.
Arguments Raise {A} e.

#[export] Instance result_ret : MRet result := λ A a, Ok a.
#[export] Instance result_bind : MBind result :=
  λ A B f r, match r with Ok a => f a | Raise e => Raise e end.

Definition of_option {A} (e : exn) (o : option A) : result A :=
  match o with Some a => Ok a | None => Raise e end.

End Exn.
Export Exn.

(** ** One-dimensional numpy arrays *)

Module Np.
Section Np.
Context {F : Type} `{Float64 F}.

(** A binary ufunc on two 1-D arrays: equal lengths pair up, a length-1
    operand is broadcast, anything else raises [ValueError]. *)
Definition broadcast2 (f : F → F → F) (a b : list F) : result (list F) :=
  if Nat.eqb (length a) (length b) then Ok (zip_with f a b)
  else match a, b with
       | [x], _ => Ok (map (f x) b)
       | _, [y] => Ok (map (λ x, f x y) a)
       | _, _ => Raise ValueError
       end.

Definition add := broadcast2 fadd.
Definition true_divide := broadcast2 fdiv.
Definition negative (a : list F) : list F := map fneg a.
Definition power2 (a : list F) : list F := map fsqr a.
Definition scale (c : F) (a : list F) : list F := map (fmul c) a.

(** [np.sum].  numpy adds the elements pairwise in blocks; the model
    accumulates from [0.0] in index order, which is the same number in exact
    arithmetic. *)
Definition sum (a : list F) : F := fold_left fadd a (lit 0).

(** [a.view(float)]: the same buffer seen as a plain float array. *)
Definition view_float (a : list F) : list F := a.
End Np.
End Np.

(** ** src/analysis/fitting.py *)

Module Fitting.
Section Fitting.
Context {F : Type} `{Float64 F}.

(** [np.log] and [np.pi]: library values the rationals do not have, so
    they are parameters of the development. *)
Variable np_log : F → F.
Variable np_pi : F.

Definition log_array (a : list F) : list F := map np_log a.

(** [np.sum((np.add(image.view(float), - model_image) / noise) ** 2.0)] *)
Definition compute_chi_sq_term (image noise model_image : list F) : result F :=
  residuals ← Np.add (Np.view_float image) (Np.negative model_image);
  scaled ← Np.true_divide residuals noise;
  mret (Np.sum (Np.power2 scaled)).

(** [np.sum(np.log(2 * np.pi * noise ** 2.0))] *)
Definition compute_noise_term (noise : list F) : F :=
  Np.sum (log_array (Np.scale (fmul (lit 2) np_pi) (Np.power2 noise))).

(** [-0.5 * (compute_chi_sq_term(...) + compute_noise_term(noise))] *)
Definition compute_likelihood (image noise model_image : list F) : result F :=
  chi_sq ← compute_chi_sq_term image noise model_image;
  mret (fmul (lit (-0.5)) (fadd chi_sq (compute_noise_term noise))).

(** The pixelization fit object.  Its class lives in
    [src/pixelization], which is not part of the sources at hand, so its
    attributes and methods are fields: what the fit holds and what its
    methods return (or raise). *)
Record PixFit (M : Type) : Type := {
  covariance_regularization : M;
  regularization : M;
  model_image_from_reconstruction : result (list F);
  regularization_term_from_reconstruction : result F;
  log_determinant_of_matrix_cholesky : M → result F
    }.
Arguments covariance_regularization {M}.
Arguments regularization {M}.
Arguments model_image_from_reconstruction {M}.
Arguments regularization_term_from_reconstruction {M}.
Arguments log_determinant_of_matrix_cholesky {M}.

(** Python evaluates the operands of the sum left to right. *)
Definition compute_pixelization_evidence {M : Type}
    (image noise model_image : list F) (pix_fit : PixFit M) : result F :=
  chi_sq ← compute_chi_sq_term image noise model_image;
  reg_term ← regularization_term_from_reconstruction pix_fit;
  ld_cov_reg ← log_determinant_of_matrix_cholesky pix_fit
                  (covariance_regularization pix_fit);
  ld_reg ← log_determinant_of_matrix_cholesky pix_fit (regularization pix_fit);
  mret (fmul (lit (-0.5))
          (fadd (fsub (fadd (fadd chi_sq reg_term) ld_cov_reg) ld_reg)
                (compute_noise_term noise))).

(** *** The formulas of the specification, pixel by pixel *)

(** [Σ_{i<n} f i], accumulated from zero in index order. *)
Fixpoint big_sum (n : nat) (f : nat → F) : F :=
  match n with
  | O => lit 0
  | S k => fadd (big_sum k f) (f k)
  end.

Definition pixel (a : list F) (i : nat) : F := nth i a (lit 0).

(** chi_squared = Σ ((data - model)/noise)² *)
Definition chi_squared_spec (data noise model : list F) : F :=
  big_sum (length data)
    (λ i, fsqr (fdiv (fsub (pixel data i) (pixel model i)) (pixel noise i))).

(** noise_normalization = Σ log(2π·noise²) *)
Definition noise_normalization_spec (noise : list F) : F :=
  big_sum (length noise)
    (λ i, np_log (fmul (fmul (lit 2) np_pi) (fsqr (pixel noise i)))).

(** log_likelihood = -0.5·(chi_squared + noise_normalization) *)
Definition likelihood_spec (data noise model : list F) : F :=
  fmul (lit (-0.5))
       (fadd (chi_squared_spec data noise model) (noise_normalization_spec noise)).

(** log_evidence = -0.5·(chi_squared + regularization_term
                         + log_det(F+R) - log_det(R) + noise_normalization) *)
Definition evidence_spec (data noise model : list F)
    (reg_term log_det_cov_reg log_det_reg : F) : F :=
  fmul (lit (-0.5))
       (fadd (fsub (fadd (fadd (chi_squared_spec data noise model) reg_term)
                         log_det_cov_reg)
                   log_det_reg)
             (noise_normalization_spec noise)).
End Fitting.

Arguments covariance_regularization {F M}.
Arguments regularization {F M}.
Arguments model_image_from_reconstruction {F M}.
Arguments regularization_term_from_reconstruction {F M}.
Arguments log_determinant_of_matrix_cholesky {F M}.
End Fitting.

(** ** The fit functions on the Python heap *)

(** [fitting.py] once more, now with the arrays where Python keeps them: on
    a heap, reached through references.  A numpy operation reads its operands
    and allocates its result; [view] returns a reference to the buffer it is
    given.  This is the level at which a fit could modify its inputs. *)

Module PyState.

(** A computation that reads and updates a store and may raise; the store
    survives an exception. *)
Definition state (Σ A : Type) : Type := Σ → result A * Σ.

Definition py_ret {Σ A : Type} (a : A) : state Σ A := λ h, (Ok a, h).
Definition py_bind {Σ A B : Type} (m : state Σ A) (k : A → state Σ B) : state Σ B :=
  λ h, match m h with
       | (Ok a, h') => k a h'
       | (Raise e, h') => (Raise e, h')
       end.
Definition py_lift {Σ A : Type} (r : result A) : state Σ A := λ h, (r, h).

End PyState.

Module FittingHeap.
Import PyState.
Section FittingHeap.
Context {F : Type} `{Float64 F}.
Variable np_log : F → F.
Variable np_pi : F.

(** References to arrays. *)
Definition loc : Type := nat.

(** Computations on the heap of arrays. *)
Definition Py (A : Type) : Type := state (gmap nat (list F)) A.

(** Dereference an array. *)
Definition read (l : loc) : Py (list F) :=
  λ h, (of_option IndexError (h !! l), h).

(** A new array, at an address not in use. *)
Definition alloc (a : list F) : Py loc :=
  λ h, let l := fresh (dom h) in (Ok l, <[l := a]> h).

Definition unary (f : list F → list F) (l : loc) : Py loc :=
  py_bind (read l) (λ a, alloc (f a)).
Definition binary (f : list F → list F → result (list F)) (l1 l2 : loc) : Py loc :=
  py_bind (read l1) (λ a, py_bind (read l2) (λ b,
  py_bind (py_lift (f a b)) alloc)).

Definition view_float (l : loc) : Py loc := py_ret l.
Definition np_negative := unary Np.negative.
Definition np_power2 := unary Np.power2.
Definition np_scale (c : F) := unary (Np.scale c).
Definition np_log_array := unary (map np_log).
Definition np_add := binary Np.add.
Definition np_true_divide := binary Np.true_divide.
Definition np_sum (l : loc) : Py F := py_bind (read l) (λ a, py_ret (Np.sum a)).

(** The image: a [GridData] array with its [background_noise] attribute. *)
Record Image : Type := {
  pixels : loc;
  background_noise : loc
}.

(** The collaborators are not among the sources.  By the spec (4.5, 5) the
    ray tracer is a pure function of the model and the grids, and the frame
    convolver is read-only: a method is a function of the contents of the
    arrays it is given, and its result is a new array (or object). *)
Record KernelConvolver : Type := {
  convolve_array : list F → list F → result (list F)
}.
Record PixPreFit (M : Type) : Type := {
  fit_image_via_inversion :
    list F → list F → KernelConvolver → result (Fitting.PixFit (F:=F) M)
}.
Arguments fit_image_via_inversion {M}.
Record Tracer (Mapping M : Type) : Type := {
  generate_image_of_galaxy_light_profiles : Mapping → result (list F);
  generate_blurring_image_of_galaxy_light_profiles : result (list F);
  generate_pixelization_matrices_of_source_galaxy : Mapping → result (PixPreFit M)
}.
Arguments generate_image_of_galaxy_light_profiles {Mapping M}.
Arguments generate_blurring_image_of_galaxy_light_profiles {Mapping M}.
Arguments generate_pixelization_matrices_of_source_galaxy {Mapping M}.

Definition compute_chi_sq_term (image noise model_image : loc) : Py F :=
  py_bind (view_float image) (λ view,
  py_bind (np_negative model_image) (λ minus_model,
  py_bind (np_add view minus_model) (λ residuals,
  py_bind (np_true_divide residuals noise) (λ scaled,
  py_bind (np_power2 scaled) (λ squares,
  np_sum squares))))).

Definition compute_noise_term (noise : loc) : Py F :=
  py_bind (np_power2 noise) (λ squares,
  py_bind (np_scale (fmul (lit 2) np_pi) squares) (λ scaled,
  py_bind (np_log_array scaled) (λ logs,
  np_sum logs))).

Definition compute_likelihood (image noise model_image : loc) : Py F :=
  py_bind (compute_chi_sq_term image noise model_image) (λ chi_sq,
  py_bind (compute_noise_term noise) (λ noise_term,
  py_ret (fmul (lit (-0.5)) (fadd chi_sq noise_term)))).

Definition compute_pixelization_evidence {M : Type}
    (image noise model_image : loc) (pix_fit : Fitting.PixFit (F:=F) M) : Py F :=
  py_bind (compute_chi_sq_term image noise model_image) (λ chi_sq,
  py_bind (py_lift (Fitting.regularization_term_from_reconstruction pix_fit))
    (λ reg_term,
  py_bind (py_lift (Fitting.log_determinant_of_matrix_cholesky pix_fit
                      (Fitting.covariance_regularization pix_fit))) (λ ld_cov_reg,
  py_bind (py_lift (Fitting.log_determinant_of_matrix_cholesky pix_fit
                      (Fitting.regularization pix_fit))) (λ ld_reg,
  py_bind (compute_noise_term noise) (λ noise_term,
  py_ret (fmul (lit (-0.5))
            (fadd (fsub (fadd (fadd chi_sq reg_term) ld_cov_reg) ld_reg)
                  noise_term))))))).

Definition blur_image_including_blurring_region (image blurring_image : loc)
    (kernel_convolver : KernelConvolver) : Py loc :=
  binary (convolve_array kernel_convolver) image blurring_image.

Definition generate_blurred_light_profile_image {Mapping M : Type}
    (tracer : Tracer Mapping M) (kernel_convolver : KernelConvolver)
    (mapping : Mapping) : Py loc :=
  py_bind (py_lift (generate_image_of_galaxy_light_profiles tracer mapping))
    (λ a, py_bind (alloc a) (λ image_light_profile,
  py_bind (py_lift (generate_blurring_image_of_galaxy_light_profiles tracer))
    (λ b, py_bind (alloc b) (λ blurring_image_light_profile,
  blur_image_including_blurring_region image_light_profile
    blurring_image_light_profile kernel_convolver)))).

Definition fit_data_with_profiles {Mapping M : Type} (image : Image)
    (kernel_convolver : KernelConvolver) (tracer : Tracer Mapping M)
    (mapping : Mapping) : Py F :=
  py_bind (generate_blurred_light_profile_image tracer kernel_convolver mapping)
    (λ blurred_model_image,
  compute_likelihood (pixels image) (background_noise image) blurred_model_image).

Definition fit_data_with_pixelization {Mapping M : Type} (image : Image)
    (kernel_convolver : KernelConvolver) (tracer : Tracer Mapping M)
    (mapping : Mapping) : Py F :=
  py_bind (py_lift (generate_pixelization_matrices_of_source_galaxy tracer mapping))
    (λ pix_pre_fit,
  py_bind (read (pixels image)) (λ image_values,
  py_bind (read (background_noise image)) (λ noise_values,
  py_bind (py_lift (fit_image_via_inversion pix_pre_fit image_values noise_values
                      kernel_convolver)) (λ pix_fit,
  py_bind (py_lift (Fitting.model_image_from_reconstruction pix_fit)) (λ m,
  py_bind (alloc m) (λ model_image,
  compute_pixelization_evidence (pixels image) (background_noise image)
    model_image pix_fit)))))).

(** *** What the fit functions compute from the contents of their inputs *)

Definition fit_data_with_profiles_value {Mapping M : Type}
    (image_values noise_values : list F)
    (kernel_convolver : KernelConvolver) (tracer : Tracer Mapping M)
    (mapping : Mapping) : result F :=
  a ← generate_image_of_galaxy_light_profiles tracer mapping;
  b ← generate_blurring_image_of_galaxy_light_profiles tracer;
  blurred_model_image ← convolve_array kernel_convolver a b;
  Fitting.compute_likelihood np_log np_pi image_values noise_values blurred_model_image.

Definition fit_data_with_pixelization_value {Mapping M : Type}
    (image_values noise_values : list F)
    (kernel_convolver : KernelConvolver) (tracer : Tracer Mapping M)
    (mapping : Mapping) : result F :=
  pix_pre_fit ← generate_pixelization_matrices_of_source_galaxy tracer mapping;
  pix_fit ← fit_image_via_inversion pix_pre_fit image_values noise_values
               kernel_convolver;
  model_image ← Fitting.model_image_from_reconstruction pix_fit;
  Fitting.compute_pixelization_evidence np_log np_pi image_values noise_values
    model_image pix_fit.

(** *** What a computation returns *)

(** Run from [h], the computation [m] yields [r] and only adds arrays. *)
Definition returns_value {A : Type} (m : Py A) (h : gmap nat (list F))
    (r : result A) : Prop :=
  ∃ h', m h = (r, h') ∧ h ⊆ h'.

(** Run from [h], [m] yields a reference to an array with contents [r] (or
    raises as [r] does) and only adds arrays. *)
Definition returns_array (m : Py loc) (h : gmap nat (list F))
    (r : result (list F)) : Prop :=
  ∃ h', h ⊆ h' ∧
    match r with
    | Ok a => ∃ l, m h = (Ok l, h') ∧ h' !! l = Some a
    | Raise e => m h = (Raise e, h')
    end.

End FittingHeap.
Arguments KernelConvolver F : clear implicits.
Arguments PixPreFit F M : clear implicits.
Arguments Tracer F Mapping M : clear implicits.
Arguments fit_image_via_inversion {F M}.
Arguments generate_image_of_galaxy_light_profiles {F Mapping M}.
Arguments generate_blurring_image_of_galaxy_light_profiles {F Mapping M}.
Arguments generate_pixelization_matrices_of_source_galaxy {F Mapping M}.
End FittingHeap.

(** ** Loops and array accesses *)

Module Loop.

(** [for a in l: s = body(a, s)], stopping at the first exception. *)
Fixpoint for_each {A S : Type} (l : list A) (body : A → S → result S) (s : S)
    : result S :=
  match l with
  | [] => Ok s
  | a :: l' => s' ← body a s; for_each l' body s'
  end.

(** [range(n)] for a shape component, and for an [int] read from an array
    (empty when it is negative). *)
Definition range (n : nat) : list nat := seq 0 n.
Definition range_int (n : Z) : list nat := seq 0 (Z.to_nat n).

(** [a[i]] for a loop index [i]. *)
Definition item {A : Type} (a : list A) (i : nat) : result A :=
  of_option IndexError (a !! i).

(** An [int] used as an index into an axis of length [n]: negative indices
    count from the end.  Compiled code does not check bounds; an index outside
    [-n, n) is an [IndexError] here, as in the interpreted function. *)
Definition index_in (n : nat) (i : Z) : result nat :=
  if decide (0 ≤ i < Z.of_nat n)%Z then Ok (Z.to_nat i)
  else if decide (- Z.of_nat n ≤ i < 0)%Z then Ok (Z.to_nat (Z.of_nat n + i))
  else Raise IndexError.

End Loop.

(** ** Two-dimensional arrays *)

Module Array2.

Record ndarray2 (A : Type) : Type := mk_ndarray2 {
  shape0 : nat;
  shape1 : nat;
  rows : list (list A)
}.
Arguments mk_ndarray2 {A}.
Arguments shape0 {A}.
Arguments shape1 {A}.
Arguments rows {A}.

(** A numpy array is rectangular: [shape0] rows of [shape1] cells. *)
Definition wf {A : Type} (m : ndarray2 A) : Prop :=
  length (rows m) = shape0 m ∧ Forall (λ r, length r = shape1 m) (rows m).

(** [m[i, j]] *)
Definition get {A : Type} (m : ndarray2 A) (i j : nat) : result A :=
  row ← Loop.item (rows m) i; Loop.item row j.

Definition entry {A : Type} (m : ndarray2 A) (i j : nat) : option A :=
  row ← rows m !! i; row !! j.

Section Float.
Context {F : Type} `{Float64 F}.

(** [np.zeros((n, m))] *)
Definition zeros (n m : nat) : ndarray2 F :=
  mk_ndarray2 n m (replicate n (replicate m (lit 0))).

(** [m[i, j] += x] *)
Definition add_at (m : ndarray2 F) (i j : nat) (x : F) : result (ndarray2 F) :=
  row ← Loop.item (rows m) i;
  old ← Loop.item row j;
  Ok (mk_ndarray2 (shape0 m) (shape1 m) (<[i := <[j := fadd old x]> row]> (rows m))).

(** [v[i] += x] on a 1-D array *)
Definition add_at1 (v : list F) (i : nat) (x : F) : result (list F) :=
  old ← Loop.item v i;
  Ok (<[i := fadd old x]> v).

(** The [n]×[n] identity mapping matrix: image pixel [i] maps to source
    pixel [i]. *)
Definition identity (n : nat) : ndarray2 F :=
  mk_ndarray2 n n
    (map (λ i, map (λ j, if Nat.eqb i j then lit 1 else lit 0) (seq 0 n)) (seq 0 n)).

(** [np.dot(m, x)] for a matrix and a vector. *)
Definition dot (m : ndarray2 F) (x : list F) : result (list F) :=
  if Nat.eqb (shape1 m) (length x)
  then Ok (map (λ row, Np.sum (zip_with fmul row x)) (rows m))
  else Raise ValueError.

(** The mapping matrix with every entry that is [<= 0] replaced by [0]. *)
Definition clip_non_positive (m : ndarray2 F) : ndarray2 F :=
  mk_ndarray2 (shape0 m) (shape1 m)
    (map (map (λ value, if fle value (lit 0) then lit 0 else value)) (rows m)).

(** *** What an array holds *)

(** The array [b] has shape [(n, m)] and holds [g v p] in cell [(v, p)]. *)
Definition holds (n m : nat) (b : ndarray2 F) (g : nat → nat → F) : Prop :=
  shape0 b = n ∧ shape1 b = m ∧ wf b ∧
  ∀ v p, v < n → p < m → entry b v p = Some (g v p).

(** Apply [c v] to the cells of column [p], leave the others. *)
Definition col_step (p : nat) (c : nat → F → F) (g : nat → nat → F)
    : nat → nat → F :=
  λ v p', if decide (p' = p) then c v (g v p') else g v p'.

(** The array [b] is rectangular, of shape [(n, m)]. *)
Definition same_shape (n m : nat) (b : ndarray2 F) : Prop :=
  shape0 b = n ∧ shape1 b = m ∧ wf b.

(** The 1-D array [y] has length [n] and holds [h v] in cell [v]. *)
Definition holds1 (n : nat) (y : list F) (h : nat → F) : Prop :=
  length y = n ∧ ∀ v, v < n → y !! v = Some (h v).

End Float.
End Array2.

(** ** autolens/inversion/convolution.py *)

Module Convolution.
Import Loop Array2.
Section Convolution.
Context {F : Type} `{Float64 F}.

(** The frames of a convolver: for every image pixel the indexes of the
    pixels its PSF taps land on, the kernel values of those taps, and how
    many taps there are. *)
Record Frames : Type := mk_Frames {
  image_frame_indexes : list (list Z);
  image_frame_kernels : list (list F);
  image_frame_lengths : list Z
}.

(** The innermost loop of [convolve_matrix_jit]:
    [blurred_mapping_matrix[vector_index, pixel_index] += value * kernel]. *)
Definition kernel_loop (value : F) (frame_indexes : list Z) (frame_kernels : list F)
    (frame_length : Z) (pixel_index : nat) (blurred : ndarray2 F)
    : result (ndarray2 F) :=
  for_each (range_int frame_length) (λ kernel_index blurred,
    vector_index ← item frame_indexes kernel_index;
    kernel ← item frame_kernels kernel_index;
    i ← index_in (shape0 blurred) vector_index;
    add_at blurred i pixel_index (fmul value kernel)) blurred.

Definition convolve_matrix_jit (mapping_matrix : ndarray2 F) (fr : Frames)
    : result (ndarray2 F) :=
  let blurred_mapping_matrix := zeros (shape0 mapping_matrix) (shape1 mapping_matrix) in
  for_each (range (shape1 mapping_matrix)) (λ pixel_index blurred,
    for_each (range (shape0 mapping_matrix)) (λ image_index blurred,
      value ← get mapping_matrix image_index pixel_index;
      if fgt value (lit 0) then
        frame_indexes ← item (image_frame_indexes fr) image_index;
        frame_kernels ← item (image_frame_kernels fr) image_index;
        frame_length ← item (image_frame_lengths fr) image_index;
        kernel_loop value frame_indexes frame_kernels frame_length pixel_index blurred
      else Ok blurred) blurred) blurred_mapping_matrix.

(** [ConvolverMappingMatrix.convolve_mapping_matrix] passes the frames of the
    convolver to the compiled loop. *)
Definition convolve_mapping_matrix (fr : Frames) (mapping_matrix : ndarray2 F)
    : result (ndarray2 F) :=
  convolve_matrix_jit mapping_matrix fr.

(** Modelled from the spec: the Frame Convolver's [convolve(vector)] of the
    base class [autolens.imaging.convolution.Convolver], which is not among
    the sources.  The spec (3, 4.1) gives every unmasked pixel an ordered list
    of (target pixel index, weight) pairs and has [convolve] blur a 1-D
    image-length vector with them: each pixel's value, times the weight of a
    tap, is added to the tap's target pixel. *)
Definition convolve (fr : Frames) (image_array : list F) : result (list F) :=
  let new_array := replicate (length image_array) (lit 0) in
  for_each (range (length image_array)) (λ image_index new_array,
    frame_indexes ← item (image_frame_indexes fr) image_index;
    frame_kernels ← item (image_frame_kernels fr) image_index;
    frame_length ← item (image_frame_lengths fr) image_index;
    value ← item image_array image_index;
    for_each (range_int frame_length) (λ kernel_index new_array,
      vector_index ← item frame_indexes kernel_index;
      kernel ← item frame_kernels kernel_index;
      i ← index_in (length new_array) vector_index;
      add_at1 new_array i (fmul value kernel)) new_array) new_array.

(** The frames fit an image of [n] pixels: every pixel has its three
    entries, its frame length does not exceed its two rows, and each tap it
    counts lands on a pixel of the image. *)
Definition frame_ok (n : nat) (idx : list Z) (ker : list F) (len : Z) : bool :=
  (Z.to_nat len <=? length idx) && (Z.to_nat len <=? length ker) &&
  forallb (λ z, (- Z.of_nat n <=? z)%Z && (z <? Z.of_nat n)%Z)
          (take (Z.to_nat len) idx).

Definition frames_ok (n : nat) (fr : Frames) : bool :=
  forallb (λ i,
    match image_frame_indexes fr !! i, image_frame_kernels fr !! i,
          image_frame_lengths fr !! i with
    | Some idx, Some ker, Some len => frame_ok n idx ker len
    | _, _, _ => false
    end) (seq 0 n).

(** *** The blurred matrix, cell by cell *)

(** The row an [int] index of an axis of length [n] stands for. *)
Definition norm_index (n : nat) (i : Z) : nat :=
  if decide (0 ≤ i)%Z then Z.to_nat i else Z.to_nat (Z.of_nat n + i).

(** What the taps of image pixel [i], each weighted by [value], add to the
    running value [acc] of pixel [v]. *)
Definition tap_sum (n : nat) (fr : Frames) (value : F) (i v : nat) (acc : F) : F :=
  let idx := nth i (image_frame_indexes fr) [] in
  let ker := nth i (image_frame_kernels fr) [] in
  fold_left (λ acc k,
      if decide (v = norm_index n (nth k idx 0%Z))
      then fadd acc (fmul value (nth k ker (lit 0))) else acc)
    (range_int (nth i (image_frame_lengths fr) 0%Z)) acc.

(** Cell [(v, p)] of the blurred mapping matrix: the taps of the image
    pixels whose entry in column [p] is positive. *)
Definition blurred_cell (m : ndarray2 F) (fr : Frames) (v p : nat) : F :=
  fold_left (λ acc i,
      let value := nth p (nth i (rows m) []) (lit 0) in
      if fgt value (lit 0) then tap_sum (shape0 m) fr value i v acc else acc)
    (range (shape0 m)) (lit 0).

(** Pixel [v] of a convolved image. *)
Definition convolved_pixel (fr : Frames) (image_array : list F) (v : nat) : F :=
  fold_left (λ acc i,
      tap_sum (length image_array) fr (nth i image_array (lit 0)) i v acc)
    (range (length image_array)) (lit 0).

(** The taps one image pixel adds to pixel [v], from explicit frame rows. *)
Definition taps (n : nat) (value : F) (idx : list Z) (ker : list F) (len : Z)
    (v : nat) (acc : F) : F :=
  fold_left (λ acc k,
      if decide (v = norm_index n (nth k idx 0%Z))
      then fadd acc (fmul value (nth k ker (lit 0))) else acc)
    (range_int len) acc.

(** One column of the blurred matrix: the image pixels with a positive entry
    in column [p] add their taps. *)
Definition column_cell (mm : ndarray2 F) (fr : Frames) (p v : nat) (acc : F) : F :=
  fold_left (λ acc i,
      let value := nth p (nth i (rows mm) []) (lit 0) in
      if fgt value (lit 0) then tap_sum (shape0 mm) fr value i v acc else acc)
    (range (shape0 mm)) acc.

End Convolution.
Arguments Frames F : clear implicits.
End Convolution.

(** ** autolens/pipeline/phase/phase_extensions/hyper_phase.py *)

Module Hyper.
Import PyState.

(** The objects [HyperPhase.run] handles, by reference: results (attribute
    dictionaries), results collections, and data (arrays and the like) that
    it only passes on. *)
Inductive obj : Type :=
| Result (attrs : gmap string nat)
| Collection (result_list : list nat) (result_dict : gmap string nat)
| Data (payload : Z).

Definition Py (A : Type) : Type := state (gmap nat obj) A.

Definition alloc (o : obj) : Py nat :=
  λ h, let l := fresh (dom h) in (Ok l, <[l := o]> h).

(** [af.ResultsCollection()] *)
Definition new_results_collection : Py nat := alloc (Collection [] ∅).

(** [results.add(name, result)].  The class belongs to autofit; as the tests
    and [phase.py] use it, [add] appends the result to the collection (read
    back by position and as [last]) and records it under the phase name. *)
Definition add (results : nat) (name : string) (result : nat) : Py unit :=
  λ h, match h !! results with
       | Some (Collection l d) =>
           (Ok (), <[results := Collection (l ++ [result]) (<[name := result]> d)]> h)
       | _ => (Raise AttributeError, h)
       end.

(** [setattr(o, name, value)] on a result object. *)
Definition setattr (o : nat) (name : string) (value : nat) : Py unit :=
  λ h, match h !! o with
       | Some (Result attrs) => (Ok (), <[o := Result (<[name := value]> attrs)]> h)
       | _ => (Raise AttributeError, h)
       end.

(** The wrapped phase: its name and its [run(data, results=results)]. *)
Record Phase : Type := {
  phase_name : string;
  phase_run : nat → nat → Py nat
}.

(** A hyper phase; [run_hyper] is what a subclass puts in place of the
    abstract method. *)
Record HyperPhase : Type := {
  phase : Phase;
  hyper_name : string;
  run_hyper : nat → nat → Py nat
}.

(** [HyperPhase.run_hyper] of the base class. *)
Definition abstract_run_hyper (data results : nat) : Py nat :=
  λ h, (Raise NotImplementedError, h).

(** *** copy.deepcopy *)

(** [f] over a list, threading the state, stopping at the first exception. *)
Fixpoint map_state {A B S : Type} (f : A → S → result B * S) (l : list A) (st : S)
    : result (list B) * S :=
  match l with
  | [] => (Ok [], st)
  | a :: l' =>
      match f a st with
      | (Ok b, st1) =>
          match map_state f l' st1 with
          | (Ok bs, st2) => (Ok (b :: bs), st2)
          | (Raise e, st2) => (Raise e, st2)
          end
      | (Raise e, st1) => (Raise e, st1)
      end
  end.

(** The deep copy of the Python library on these objects.  The memo maps
    an object already met to its copy, so an object that is reached twice (an
    alias, a cycle) is copied once; a new object is entered in the memo
    before its fields are copied.  [depth] is the recursion limit. *)
Fixpoint deepcopy_memo (depth : nat) (l : nat) (st : gmap nat nat * gmap nat obj)
    : result nat * (gmap nat nat * gmap nat obj) :=
  match depth with
  | O => (Raise RecursionError, st)
  | S depth' =>
      match st.1 !! l with
      | Some c => (Ok c, st)
      | None =>
          let c := fresh (dom st.2) in
          match st.2 !! l with
          | None => (Raise AttributeError, st)
          | Some (Data z) => (Ok c, (<[l := c]> st.1, <[c := Data z]> st.2))
          | Some (Result attrs) =>
              let fields := map_to_list attrs in
              match map_state (deepcopy_memo depth') fields.*2
                      (<[l := c]> st.1, <[c := Result ∅]> st.2) with
              | (Ok values, st') =>
                  (Ok c, (st'.1,
                          <[c := Result (list_to_map (zip fields.*1 values))]> st'.2))
              | (Raise e, st') => (Raise e, st')
              end
          | Some (Collection lst d) =>
              let entries := map_to_list d in
              match map_state (deepcopy_memo depth') lst
                      (<[l := c]> st.1, <[c := Collection [] ∅]> st.2) with
              | (Ok lst', st') =>
                  match map_state (deepcopy_memo depth') entries.*2 st' with
                  | (Ok values, st'') =>
                      (Ok c, (st''.1,
                              <[c := Collection lst'
                                       (list_to_map (zip entries.*1 values))]> st''.2))
                  | (Raise e, st'') => (Raise e, st'')
                  end
              | (Raise e, st') => (Raise e, st')
              end
          end
      end
  end.

(** [copy.deepcopy(x)]: an empty memo, and room to descend through every
    object of the heap. *)
Definition deepcopy (l : nat) : Py nat :=
  λ h, let r := deepcopy_memo (S (size h)) l (∅, h) in (r.1, r.2.2).

(** *** HyperPhase.run *)

(** [HyperPhase.run(data, results=None)] *)
Definition run (self : HyperPhase) (data : nat) (results : option nat) : Py nat :=
  py_bind (match results with
           | Some r => deepcopy r
           | None => new_results_collection
           end) (λ results,
  py_bind (phase_run (phase self) data results) (λ result,
  py_bind (add results (phase_name (phase self)) result) (λ _,
  py_bind (run_hyper self data results) (λ hyper_result,
  py_bind (setattr result (hyper_name self) hyper_result) (λ _,
  py_ret result))))).

(** *** References between objects *)

Definition points_to (o : obj) (l : nat) : Prop :=
  match o with
  | Result attrs => ∃ k, attrs !! k = Some l
  | Collection lst d => l ∈ lst ∨ ∃ k, d !! k = Some l
  | Data _ => False
  end.

(** [l'] can be reached from [l] by following references in [h]. *)
Inductive reach (h : gmap nat obj) : nat → nat → Prop :=
| reach_refl l : reach h l l
| reach_step l o l' l'' :
    h !! l = Some o → points_to o l' → reach h l' l'' → reach h l l''.

(** Nothing in [keep] can be reached from [c]. *)
Definition isolated (h : gmap nat obj) (c : nat) (keep : gset nat) : Prop :=
  ∀ l, reach h c l → l ∉ keep.

(** What [HyperPhase.run] needs of a deep copy: it changes no object, and
    the copy shares no object with the heap it was made in. *)
Definition deepcopy_contract (copy : nat → Py nat) : Prop :=
  ∀ l h, h ⊆ (copy l h).2 ∧
         ∀ c, (copy l h).1 = Ok c → ∀ l', reach (copy l h).2 c l' → l' ∉ dom h.

(** A method that is handed a results collection from which no object of
    [keep] can be reached leaves the objects of [keep] as they are, and
    does not make them reachable from the collection or from what it
    returns. *)
Definition respects (keep : gset nat) (f : nat → nat → Py nat) : Prop :=
  ∀ data c h, keep ⊆ dom h → isolated h c keep →
    (∀ l, l ∈ keep → (f data c h).2 !! l = h !! l) ∧
    isolated (f data c h).2 c keep ∧
    ∀ r, (f data c h).1 = Ok r → isolated (f data c h).2 r keep.

(** While a copy is made: the heap [h0] the copy started in is intact, the
    memo leads to new objects, and new objects refer to new objects. *)
Definition is_new (h0 : gmap nat obj) (st : gmap nat nat * gmap nat obj) (c : nat)
    : Prop :=
  c ∈ dom st.2 ∧ c ∉ dom h0.

Definition copy_inv (h0 : gmap nat obj) (st : gmap nat nat * gmap nat obj) : Prop :=
  h0 ⊆ st.2 ∧
  (∀ l c, st.1 !! l = Some c → is_new h0 st c) ∧
  (∀ x o y, x ∉ dom h0 → st.2 !! x = Some o → points_to o y → is_new h0 st y).

(** What a step of the copy guarantees. *)
Definition copy_step_ok (h0 : gmap nat obj)
    (f : nat → gmap nat nat * gmap nat obj → result nat * (gmap nat nat * gmap nat obj))
    : Prop :=
  ∀ a st, copy_inv h0 st →
    copy_inv h0 (f a st).2 ∧ dom st.2 ⊆ dom (f a st).2.2 ∧
    ∀ c, (f a st).1 = Ok c → is_new h0 (f a st).2 c.

End Hyper.

(** ** Concrete inputs *)

Module Fixtures.
Import Array2 Convolution PyState FittingHeap.
Import Rdefinitions.

(** *** Floats *)

(** An image of two pixels, its noise and a model image. *)
Definition image2 : list float := [1.0; 2.0]%float.
Definition noise2 : list float := [1.0; 0.5]%float.
Definition model2 : list float := [0.0; 1.0]%float.

(** The three arrays on the heap. *)
Definition float_heap : gmap nat (list float) :=
  <[0 := image2]> (<[1 := noise2]> (<[2 := model2]> ∅)).

(** A 3×2 mapping matrix with entries that are negative, zero, negative
    zero and not a number. *)
Definition mapping3x2_float : ndarray2 float :=
  mk_ndarray2 3 2 [[1.0; -1.0]; [nan; 2.0]; [0.0; -0.0]]%float.

(** Three pixels in a row blurred by the kernel [1/4, 1/2, 1/4]; the
    frame of an edge pixel has two taps, and its row is padded. *)
Definition frames3_float : Frames float :=
  mk_Frames
    [[0; 1; 0]; [0; 1; 2]; [1; 2; 0]]%Z
    [[0.5; 0.25; 0.0]; [0.25; 0.5; 0.25]; [0.25; 0.5; 0.0]]%float
    [2; 3; 2]%Z.

(** *** Exact rationals *)

(** A rational [a/b] as a pixel value. *)
Definition q (a : Z) (b : positive) : Qc := Q2Qc (a # b).

(** The frames of the three pixels, with exact weights. *)
Definition frames3 : Frames Qc :=
  mk_Frames
    [[0; 1; 0]; [0; 1; 2]; [1; 2; 0]]%Z
    [[q 1 2; q 1 4; q 0 1]; [q 1 4; q 1 2; q 1 4]; [q 1 4; q 1 2; q 0 1]]
    [2; 3; 2]%Z.

(** A 3×2 mapping matrix with a negative and a zero entry. *)
Definition mapping3x2 : ndarray2 Qc :=
  mk_ndarray2 3 2 [[q 1 1; q (-1) 1]; [q 0 1; q 2 1]; [q 0 1; q 0 1]].

(** An image of three pixels. *)
Definition image3 : list Qc := [q 1 1; q 2 1; q (-3) 1].

(** The regularization matrix of the integration test
    [test__image_all_1s__direct_image_to_source_mapping__perfect_fit_even_with_regularization]:
    the adjacency Laplacian of the 3×3 grid of source pixels. *)
Definition reg_matrix : ndarray2 Qc :=
  mk_ndarray2 9 9 (map (map (λ z, q z 1))
    [[ 2; -1;  0; -1;  0;  0;  0;  0;  0];
     [-1;  3; -1;  0; -1;  0;  0;  0;  0];
     [ 0; -1;  2;  0;  0; -1;  0;  0;  0];
     [-1;  0;  0;  3; -1;  0; -1;  0;  0];
     [ 0; -1;  0; -1;  4; -1;  0; -1;  0];
     [ 0;  0; -1;  0; -1;  3;  0;  0; -1];
     [ 0;  0;  0; -1;  0;  0;  2; -1;  0];
     [ 0;  0;  0;  0; -1;  0; -1;  3; -1];
     [ 0;  0;  0;  0;  0; -1;  0; -1;  2]]%Z).

(** The nine illuminated pixels of that test, all of value one. *)
Definition ones9 : list Qc := replicate 9 (q 1 1).

(** *** Real numbers *)

(** The two-pixel image, noise and model as real numbers. *)
Definition image2R : list R := [Q2R 1; Q2R 2].
Definition noise2R : list R := [Q2R 1; Q2R 0.5].
Definition model2R : list R := [Q2R 0; Q2R 1].

(** A fit of one source pixel: F + R = [[2]], R = [[1]].  The Cholesky
    factor of [[x]] is [[sqrt x]], so its log-determinant is
    2·ln(sqrt x); a matrix that is not positive-definite has none. *)
Definition pix_fit1 : Fitting.PixFit (ndarray2 R) :=
  {| Fitting.covariance_regularization := mk_ndarray2 1 1 [[Q2R 2]];
     Fitting.regularization := mk_ndarray2 1 1 [[Q2R 1]];
     Fitting.model_image_from_reconstruction := Ok model2R;
     Fitting.regularization_term_from_reconstruction := Ok (Q2R 0.25);
     Fitting.log_determinant_of_matrix_cholesky :=
       λ m, match rows m with
            | [[x]] =>
                if RIneq.Rlt_dec (Q2R 0) x
                then Ok (Rmult (Q2R 2) (Rpower.ln (R_sqrt.sqrt x)))
                else Raise InversionError
            | _ => Raise InversionError
            end |}.

(** The image object, and collaborators that return fixed values. *)
Definition image_object : Image := {| pixels := 0; background_noise := 1 |}.

Definition identity_convolver : KernelConvolver R :=
  {| convolve_array := λ image blurring_image, Ok image |}.

Definition pix_pre_fit1 : PixPreFit R (ndarray2 R) :=
  {| fit_image_via_inversion := λ image noise kernel_convolver, Ok pix_fit1 |}.

Definition tracer1 : Tracer R unit (ndarray2 R) :=
  {| generate_image_of_galaxy_light_profiles := λ _, Ok model2R;
     generate_blurring_image_of_galaxy_light_profiles := Ok [];
     generate_pixelization_matrices_of_source_galaxy := λ _, Ok pix_pre_fit1 |}.

(** The heap of a first invocation, and a heap that holds the same image
    and noise among other arrays. *)
Definition heap1 : gmap nat (list R) := <[0 := image2R]> (<[1 := noise2R]> ∅).
Definition heap2 : gmap nat (list R) := <[2 := model2R]> (<[5 := []]> heap1).

End Fixtures.

(** ** Mock phases *)

Module HyperMocks.
Import PyState Hyper.

(** An object that refers to no other object. *)
Definition holds_no_reference (o : obj) : bool :=
  match o with
  | Result attrs => bool_decide (attrs = ∅)
  | Collection lst d => bool_decide (lst = []) && bool_decide (d = ∅)
  | Data _ => true
  end.

(** A phase in the manner of the mock optimizer of the unit tests: its run
    returns a new result without attributes. *)
Definition mock_run (data results : nat) : Py nat := alloc (Result ∅).

Definition mock_phase : Phase :=
  {| phase_name := "test_phase"; phase_run := mock_run |}.

Definition mock_hyper_phase : HyperPhase :=
  {| phase := mock_phase; hyper_name := "hyper_galaxy"; run_hyper := mock_run |}.

(** The caller's heap: a results collection (object 0) that holds the
    result of an earlier phase (object 2), which refers to the data
    (object 1). *)
Definition caller_heap : gmap nat obj :=
  <[0 := Collection [2] {["phase1" := 2]}]>
    (<[1 := Data 7]> (<[2 := Result {["image" := 1]}]> ∅)).

(** The caller's collection and the result in it. *)
Definition caller_results : gset nat := {[0; 2]}.

End HyperMocks.

(** ** src/analysis/fitting.py: the fit with hyper-galaxies *)

Module FittingHyper.
Import Loop.
Section FittingHyper.
Context {F : Type} `{Float64 F}.
Variable np_log : F → F.
Variable np_pi : F.

(** A hyper-galaxy.  Its class is not among the sources at hand; the two
    methods the fit calls are fields: what they return (or raise) for the
    arrays they are given. *)
Record HyperGalaxy : Type := {
  compute_contributions : list F → list F → F → result (list F);
  compute_scaled_noise : list F → list F → result (list F)
}.

(** [list(map(f, xs, ys))]: [map] stops when the shorter of its iterables
    is exhausted; the first call that raises ends the evaluation. *)
Fixpoint map2 {A B C : Type} (f : A → B → result C) (xs : list A) (ys : list B)
    : result (list C) :=
  match xs, ys with
  | x :: xs', y :: ys' => c ← f x y; cs ← map2 f xs' ys'; mret (c :: cs)
  | _, _ => Ok []
  end.

(** [list(map(f, xs, ys, zs))] *)
Fixpoint map3 {A B C D : Type} (f : A → B → C → result D)
    (xs : list A) (ys : list B) (zs : list C) : result (list D) :=
  match xs, ys, zs with
  | x :: xs', y :: ys', z :: zs' =>
      d ← f x y z; ds ← map3 f xs' ys' zs'; mret (d :: ds)
  | _, _, _ => Ok []
  end.

Definition generate_contributions (model_image : list F) (galaxy_images : list (list F))
    (hyper_galaxies : list HyperGalaxy) (minimum_values : list F)
    : result (list (list F)) :=
  map3 (λ hyper galaxy_image minimum_value,
          compute_contributions hyper model_image galaxy_image minimum_value)
       hyper_galaxies galaxy_images minimum_values.

(** What the builtin [sum] holds while it adds arrays: the [int] 0 it
    starts from, or an array. *)
Inductive running_total : Type :=
| Zero
| Array (a : list F).

(** [sum(arrays)]: [total = 0], then [total = total + a] for every array;
    [0 + a] adds 0.0 to each element of [a]. *)
Definition py_sum (arrays : list (list F)) : result running_total :=
  for_each arrays (λ a total,
    match total with
    | Zero => Ok (Array (map (fadd (lit 0)) a))
    | Array s => s' ← Np.add s a; Ok (Array s')
    end) Zero.

(** [noise + sum(scaled_noises)]; [noise + 0] adds 0.0 to each element. *)
Definition generate_scaled_noise (noise : list F) (contributions : list (list F))
    (hyper_galaxies : list HyperGalaxy) : result (list F) :=
  scaled_noises ← map2 (λ hyper contribution,
                          compute_scaled_noise hyper noise contribution)
                       hyper_galaxies contributions;
  total ← py_sum scaled_noises;
  match total with
  | Zero => Ok (map (λ x, fadd x (lit 0)) noise)
  | Array s => Np.add noise s
  end.

(** The blurred model image, from the contents of the arrays. *)
Definition generate_blurred_light_profile_image {Mapping M : Type}
    (tracer : FittingHeap.Tracer F Mapping M)
    (kernel_convolver : FittingHeap.KernelConvolver F) (mapping : Mapping)
    : result (list F) :=
  image_light_profile ←
    FittingHeap.generate_image_of_galaxy_light_profiles tracer mapping;
  blurring_image_light_profile ←
    FittingHeap.generate_blurring_image_of_galaxy_light_profiles tracer;
  FittingHeap.convolve_array kernel_convolver image_light_profile
    blurring_image_light_profile.

(** [image] and [background_noise] are the contents of the image and of its
    [background_noise] attribute. *)
Definition fit_data_with_profiles_hyper_galaxies {Mapping M : Type}
    (image background_noise : list F)
    (kernel_convolver : FittingHeap.KernelConvolver F)
    (tracer : FittingHeap.Tracer F Mapping M) (mapping : Mapping)
    (model_image : list F) (galaxy_images : list (list F))
    (minimum_values : list F) (hyper_galaxies : list HyperGalaxy) : result F :=
  contributions ←
    generate_contributions model_image galaxy_images hyper_galaxies minimum_values;
  scaled_noise ← generate_scaled_noise background_noise contributions hyper_galaxies;
  blurred_model_image ←
    generate_blurred_light_profile_image tracer kernel_convolver mapping;
  Fitting.compute_likelihood np_log np_pi image scaled_noise blurred_model_image.

(** What every pixel of the scaled noise is: the noise of the pixel plus
    the scaled noises of the hyper-galaxies at that pixel, added up from
    zero in the order of the galaxies. *)
Definition scaled_noise_pixel (scaled_noises : list (list F)) (i : nat) (x : F) : F :=
  fadd x (fold_left (λ acc s, fadd acc (Fitting.pixel s i)) scaled_noises (lit 0)).

End FittingHyper.
Arguments HyperGalaxy F : clear implicits.
Arguments running_total F : clear implicits.
Arguments Zero {F}.
End FittingHyper.

(** ** Shapes that numpy can broadcast *)

Module Broadcast.

(** Two 1-D shapes can be broadcast together when they are equal or one of
    them is 1; the result has the length of the operand that is not 1. *)
Definition broadcastable (a b : nat) : bool :=
  Nat.eqb a b || Nat.eqb a 1 || Nat.eqb b 1.

Definition broadcast_length (a b : nat) : nat :=
  if Nat.eqb a 1 then b else a.

(** The shapes of image, noise and model image fit: the residuals
    [image - model_image] can be formed, and divided by the noise. *)
Definition shapes_fit (image noise model_image : nat) : bool :=
  broadcastable image model_image
  && broadcastable (broadcast_length image model_image) noise.

End Broadcast.

(** ** Classes of binary64 values *)

Module FloatClass.

(** [math.isfinite(x)] *)
Definition isfinite (x : float) : bool :=
  match Prim2SF x with
  | S754_zero _ | S754_finite _ _ _ => true
  | _ => false
  end.

(** [x == x and x != 0]: a number (or an infinity) other than zero. *)
Definition nonzero_number (x : float) : bool :=
  match Prim2SF x with
  | S754_infinity _ | S754_finite _ _ _ => true
  | _ => false
  end.

(** The sign bit of [x] is clear, or [x] is not a number. *)
Definition unsigned_or_nan (x : spec_float) : Prop :=
  match x with
  | S754_nan => True
  | S754_zero s | S754_infinity s | S754_finite s _ _ => s = false
  end.

End FloatClass.

(** ** More laws of exact arithmetic *)

Module NumericLaws.

(** Adding zero changes nothing.  Binary64 breaks this law at one value:
    [-0.0 + 0.0] is [0.0]. *)
Class AddZero (F : Type) `{Float64 F} : Prop :=
  fadd_zero_r : ∀ a : F, fadd a (lit 0) = a.

End NumericLaws.
Export NumericLaws.

(** ** Products of matrices *)

Module Linear.
Import Array2.
Section Linear.
Context {F : Type} `{Float64 F}.

(** Column [j] of a matrix. *)
Definition column (m : ndarray2 F) (j : nat) : list F :=
  map (λ row, nth j row (lit 0)) (rows m).

(** [np.dot(a, b)] for two matrices: cell [(i, j)] is the sum of the
    products of row [i] of [a] with column [j] of [b]. *)
Definition matmul (a b : ndarray2 F) : result (ndarray2 F) :=
  if Nat.eqb (shape1 a) (shape0 b)
  then Ok (mk_ndarray2 (shape0 a) (shape1 b)
             (map (λ row, map (λ j, Np.sum (zip_with fmul row (column b j)))
                              (seq 0 (shape1 b)))
                  (rows a)))
  else Raise ValueError.

(** Every entry of the matrix is positive or the number zero. *)
Definition non_negative (m : ndarray2 F) : Prop :=
  ∀ i j value, get m i j = Ok value → fgt value (lit 0) = true ∨ value = lit 0.

(** No entry of the matrix passes the test [value > 0]. *)
Definition nowhere_positive (m : ndarray2 F) : Prop :=
  ∀ i j value, get m i j = Ok value → fgt value (lit 0) = false.

End Linear.
End Linear.

(** ** hyper_phase.py: the attributes of a hyper phase *)

Module HyperAttr.
Import PyState.

(** The class of an object: [HyperPhase], or a class that defines the
    listed names and has no [__getattr__] of its own. *)
Inductive cls : Type :=
| HyperPhaseCls
| PlainCls (defines : list string).

(** An object: its class and its [__dict__]. *)
Record pyobject : Type := {
  ob_type : cls;
  ob_dict : gmap string nat
}.

(** What an attribute access finds: a value in the [__dict__] of an
    instance, or the attribute [name] of the class of [owner] (for a
    function, the method bound to [owner]). *)
Inductive attr : Type :=
| InstanceAttr (value : nat)
| TypeAttr (owner : nat) (name : string).

Definition Py (A : Type) : Type := state (gmap nat pyobject) A.

(** The names the body of [class HyperPhase] defines. *)
Definition hyper_phase_defines : list string :=
  ["__init__"; "run_hyper"; "make_hyper_phase"; "pass_priors"; "run";
   "__getattr__"]%string.

Section Lookup.

(** The names that [object] defines for every instance ([__class__],
    [__dict__], ...): they are the interpreter's. *)
Variable object_defines : list string.

Definition type_defines (c : cls) (name : string) : bool :=
  bool_decide (name ∈ object_defines)
  || match c with
     | HyperPhaseCls => bool_decide (name ∈ hyper_phase_defines)
     | PlainCls defines => bool_decide (name ∈ defines)
     end.

(** [getattr(o, name)] (and [o.name]): the [__dict__] of the instance, then
    its class, then, for a hyper phase, [HyperPhase.__getattr__(o, name)],
    which is [getattr(self.phase, item)].  [depth] is what is left of the
    recursion limit. *)
Fixpoint getattr (depth : nat) (h : gmap nat pyobject) (o : nat) (name : string)
    : result attr :=
  match depth with
  | O => Raise RecursionError
  | S depth' =>
      match h !! o with
      | None => Raise AttributeError
      | Some ob =>
          match ob_dict ob !! name with
          | Some value => Ok (InstanceAttr value)
          | None =>
              if type_defines (ob_type ob) name then Ok (TypeAttr o name)
              else match ob_type ob with
                   | HyperPhaseCls =>
                       phase ← getattr depth' h o "phase";
                       match phase with
                       | InstanceAttr wrapped => getattr depth' h wrapped name
                       | TypeAttr _ _ => Raise AttributeError
                       end
                   | PlainCls _ => Raise AttributeError
                   end
          end
      end
  end.

End Lookup.

(** [object.__new__(cls)]: an instance with an empty [__dict__]. *)
Definition new_instance (c : cls) : Py nat :=
  λ h, let o := fresh (dom h) in
       (Ok o, <[o := {| ob_type := c; ob_dict := ∅ |}]> h).

(** [o.name = value] *)
Definition setattr (o : nat) (name : string) (value : nat) : Py unit :=
  λ h, match h !! o with
       | Some ob =>
           (Ok (), <[o := {| ob_type := ob_type ob;
                             ob_dict := <[name := value]> (ob_dict ob) |}]> h)
       | None => (Raise AttributeError, h)
       end.

(** [HyperPhase.__init__(self, phase, hyper_name)] *)
Definition init (self phase hyper_name : nat) : Py unit :=
  py_bind (setattr self "phase" phase) (λ _,
  setattr self "hyper_name" hyper_name).

(** [HyperPhase(phase, hyper_name)] *)
Definition HyperPhase (phase hyper_name : nat) : Py nat :=
  py_bind (new_instance HyperPhaseCls) (λ self,
  py_bind (init self phase hyper_name) (λ _,
  py_ret self)).

End HyperAttr.

(** ** hyper_phase.py: heaps on which a run can succeed *)

Module HyperClosed.
Import PyState Hyper.

(** The references an object holds. *)
Definition refs (o : obj) : list nat :=
  match o with
  | Result attrs => (map_to_list attrs).*2
  | Collection lst d => lst ++ (map_to_list d).*2
  | Data _ => []
  end.

(** Every reference held by an object of the heap leads to an object of the
    heap: the heap of a running program. *)
Definition closed (h : gmap nat obj) : Prop :=
  map_Forall (λ _ o, Forall (λ y, y ∈ dom h) (refs o)) h.

Definition is_collection (h : gmap nat obj) (c : nat) : Prop :=
  ∃ lst d, h !! c = Some (Collection lst d).

Definition is_result (h : gmap nat obj) (r : nat) : Prop :=
  ∃ attrs, h !! r = Some (Result attrs).

(** A phase method that, handed a results collection, returns a result
    object, and leaves the collection a collection and the results
    results. *)
Definition returns_result (f : nat → nat → Py nat) : Prop :=
  ∀ data c h, is_collection h c →
    ∃ r h', f data c h = (Ok r, h') ∧ is_collection h' c ∧ is_result h' r ∧
            ∀ x, is_result h x → is_result h' x.

(** What the copy of one object of [h0] achieves at recursion depth [depth]
    when fewer than [depth] objects of [h0] are still to be copied: it
    returns, and the memo grows within the objects of [h0]. *)
Definition copies_at (h0 : gmap nat obj) (depth : nat) : Prop :=
  ∀ l st, copy_inv h0 st → dom st.1 ⊆ dom h0 → l ∈ dom h0 →
    size (dom h0 ∖ dom st.1) < depth →
    ∃ c st', deepcopy_memo depth l st = (Ok c, st') ∧
             dom st.1 ⊆ dom st'.1 ∧ dom st'.1 ⊆ dom h0.

End HyperClosed.

(** ** More concrete inputs *)

Module MoreFixtures.
Import Array2 Convolution Fixtures FittingHyper.

(** *** Three pixels, exact *)

Definition noise3 : list Qc := [q 1 1; q 1 2; q 2 1].
Definition model3 : list Qc := [q 0 1; q 1 1; q 1 1].

(** A hyper-galaxy in the manner of the one of the galaxy module: the
    contributions are the galaxy image over the model image raised by the
    minimum value, the scaled noise is the noise times the contributions
    times a noise factor. *)
Definition scaling_hyper_galaxy (noise_factor : Qc) : HyperGalaxy Qc :=
  {| compute_contributions := λ model_image galaxy_image minimum_value,
       Np.true_divide galaxy_image (map (λ x, fadd x minimum_value) model_image);
     compute_scaled_noise := λ noise contribution,
       scaled ← Np.broadcast2 fmul noise contribution;
       Ok (Np.scale noise_factor scaled) |}.

(** Two hyper-galaxies, three galaxy images, two minimum values. *)
Definition hyper_galaxies2 : list (HyperGalaxy Qc) :=
  [scaling_hyper_galaxy (q 1 1); scaling_hyper_galaxy (q 2 1)].
Definition galaxy_images3 : list (list Qc) :=
  [[q 1 1; q 0 1; q 1 1]; [q 0 1; q 2 1; q 0 1]; [q 5 1; q 5 1; q 5 1]].
Definition minimum_values2 : list Qc := [q 1 1; q 1 1].

(** What the two hyper-galaxies make of the first two galaxy images over
    the model image [0, 1, 1], and of the noise [1, 1/2, 2]. *)
Definition contributions2 : list (list Qc) :=
  [[q 1 1; q 0 1; q 1 2]; [q 0 1; q 1 1; q 0 1]].
Definition scaled_noises2 : list (list Qc) :=
  [[q 1 1; q 0 1; q 1 1]; [q 0 1; q 1 1; q 0 1]].

(** No hyper-galaxy, over the reals. *)
Definition no_hyper_galaxies : list (HyperGalaxy Rdefinitions.R) := [].

(** *** Mapping matrices *)

(** The first column of [mapping3x2], as a matrix of one column. *)
Definition mapping3x1 : ndarray2 Qc :=
  mk_ndarray2 3 1 [[q 1 1]; [q 0 1]; [q 0 1]].

(** The frames of the three pixels with other frames for the third pixel,
    which has no positive entry in [mapping3x2]. *)
Definition frames3_other : Frames Qc :=
  mk_Frames
    [[0; 1; 0]; [0; 1; 2]; [7; 7; 7]]%Z
    [[q 1 2; q 1 4; q 0 1]; [q 1 4; q 1 2; q 1 4]; [q 1 1; q 1 1; q 1 1]]
    [2; 3; 3]%Z.

(** A mapping matrix without negative entries. *)
Definition mapping3x2_fractions : ndarray2 Qc :=
  mk_ndarray2 3 2 [[q 1 1; q 0 1]; [q 1 2; q 1 2]; [q 0 1; q 2 1]].

(** A mapping matrix in binary64 without a positive entry: a negative
    number, a zero, a negative zero and a value that is not a number. *)
Definition mapping2x2_float : ndarray2 float :=
  mk_ndarray2 2 2 [[-1.0; 0.0]; [nan; -0.0]]%float.

(** A convolver that has no frames at all. *)
Definition no_frames : Frames float := mk_Frames [] [] [].

(** *** Hyper phases *)

(** The names [object] defines that matter here. *)
Definition object_names : list string := ["__class__"; "__dict__"; "__doc__"]%string.

(** An instance of [HyperPhase] on which [__init__] has not run. *)
Definition blank_hyper_phase : gmap nat HyperAttr.pyobject :=
  {[ 0 := {| HyperAttr.ob_type := HyperAttr.HyperPhaseCls;
             HyperAttr.ob_dict := ∅ |} ]}.

(** A hyper phase that keeps the [run_hyper] of the base class. *)
Definition abstract_hyper_phase : Hyper.HyperPhase :=
  {| Hyper.phase := HyperMocks.mock_phase;
     Hyper.hyper_name := "hyper_galaxy";
     Hyper.run_hyper := Hyper.abstract_run_hyper |}.

End MoreFixtures.

(** * Properties *)

(** ** Sums over arrays *)

Module NpFacts.
Section NpFacts.
Context {F : Type} `{Float64 F}.

Lemma big_sum_ext (n : nat) (f g : nat → F) :
  (∀ i, i < n → f i = g i) → Fitting.big_sum n f = Fitting.big_sum n g.
Proof.
  induction n as [|n IH]; intros Hfg; simpl; [done|].
  rewrite IH by (intros i Hi; apply Hfg; lia).
  by rewrite Hfg by lia.
Qed.

Lemma sum_snoc (a : list F) (x : F) : Np.sum (a ++ [x]) = fadd (Np.sum a) x.
Proof. unfold Np.sum. by rewrite fold_left_app. Qed.

(** [np.sum] is the indexed sum of the pixels. *)
Lemma sum_big_sum (a : list F) :
  Np.sum a = Fitting.big_sum (length a) (Fitting.pixel a).
Proof.
  induction a as [|x a IH] using rev_ind; [done|].
  rewrite sum_snoc, length_app, Nat.add_1_r. simpl.
  rewrite IH. f_equal.
  - apply big_sum_ext. intros i Hi. unfold Fitting.pixel.
    by rewrite app_nth1 by lia.
  - unfold Fitting.pixel. rewrite app_nth2 by lia.
    by rewrite Nat.sub_diag.
Qed.

Lemma broadcast2_same_length (f : F → F → F) (a b : list F) :
  length a = length b → Np.broadcast2 f a b = Ok (zip_with f a b).
Proof.
  intros Hlen. unfold Np.broadcast2.
  by rewrite (proj2 (Nat.eqb_eq _ _) Hlen).
Qed.

Lemma pixel_map (f : F → F) (a : list F) (i : nat) :
  i < length a → Fitting.pixel (map f a) i = f (Fitting.pixel a i).
Proof.
  unfold Fitting.pixel. revert i.
  induction a as [|x a IH]; intros [|i] Hi; simpl in *; try lia; [done|].
  apply IH. lia.
Qed.

Lemma pixel_zip_with (f : F → F → F) (a b : list F) (i : nat) :
  i < length a → length a = length b →
  Fitting.pixel (zip_with f a b) i = f (Fitting.pixel a i) (Fitting.pixel b i).
Proof.
  unfold Fitting.pixel. revert b i.
  induction a as [|x a IH]; intros [|y b] [|i] Hi Hlen; simpl in *; try lia; [done|].
  apply IH; lia.
Qed.

Lemma length_zip_with_same (f : F → F → F) (a b : list F) :
  length a = length b → length (zip_with f a b) = length a.
Proof. intros Hlen. rewrite length_zip_with. lia. Qed.

End NpFacts.
End NpFacts.

(** ** The likelihood and evidence terms *)

Module FittingFacts.
Import NpFacts.
Section FittingFacts.
Context {F : Type} `{Float64 F}.
Variable np_log : F → F.
Variable np_pi : F.

(** The vectorised chi-squared term is the sum over the pixels. *)
Lemma compute_chi_sq_term_sum
    (Hsub : SubIsAddNeg F) (image noise model_image : list F) :
  length noise = length image →
  length model_image = length image →
  Fitting.compute_chi_sq_term image noise model_image
  = Ok (Fitting.chi_squared_spec image noise model_image).
Proof.
  intros Hn Hm. unfold Fitting.compute_chi_sq_term, Np.add, Np.true_divide.
  unfold Np.view_float, Np.negative, Np.power2.
  rewrite broadcast2_same_length by (by rewrite length_map).
  cbn [mbind result_bind].
  rewrite broadcast2_same_length
    by (rewrite length_zip_with_same by (by rewrite length_map); done).
  cbn [mbind result_bind mret result_ret]. f_equal.
  rewrite sum_big_sum, length_map.
  rewrite !length_zip_with_same; [|by rewrite length_map|];
    [|by rewrite length_zip_with_same by (by rewrite length_map)].
  unfold Fitting.chi_squared_spec. apply big_sum_ext. intros i Hi.
  rewrite pixel_map
    by (rewrite !length_zip_with_same; [done|by rewrite length_map|];
        by rewrite length_zip_with_same by (by rewrite length_map)).
  rewrite pixel_zip_with;
    [|by rewrite length_zip_with_same by (by rewrite length_map)
     |by rewrite length_zip_with_same by (by rewrite length_map)].
  rewrite pixel_zip_with by (by rewrite ?length_map).
  rewrite pixel_map by lia.
  by rewrite fsub_fneg.
Qed.



Lemma compute_noise_term_eq (noise : list F) :
  Fitting.compute_noise_term np_log np_pi noise
  = Fitting.noise_normalization_spec np_log np_pi noise.
Proof.
  unfold Fitting.compute_noise_term, Fitting.noise_normalization_spec.
  unfold Fitting.log_array, Np.scale, Np.power2.
  rewrite sum_big_sum, !length_map.
  apply big_sum_ext. intros i Hi.
  by rewrite !pixel_map by (by rewrite ?length_map).
Qed.



End FittingFacts.
End FittingFacts.

(** ** Loops *)

Module LoopFacts.
Import Loop.

Lemma for_each_ext {A S : Type} (l : list A) (body1 body2 : A → S → result S) (s : S) :
  (∀ a s, body1 a s = body2 a s) → for_each l body1 s = for_each l body2 s.
Proof.
  intros Hbody. revert s. induction l as [|a l IH]; intros s; simpl; [done|].
  rewrite Hbody. destruct (body2 a s) as [s'|e]; simpl; [apply IH|done].
Qed.

(** A property every iteration preserves holds of the state the loop ends in. *)
Lemma for_each_inv {A S : Type} (P : S → Prop) (l : list A)
    (body : A → S → result S) :
  (∀ a s s', P s → body a s = Ok s' → P s') →
  ∀ s s', P s → for_each l body s = Ok s' → P s'.
Proof.
  intros Hbody. induction l as [|a l IH]; intros s s' Hs Hrun; simpl in Hrun.
  - by injection Hrun as <-.
  - destruct (body a s) as [s1|e] eqn:Hstep; simpl in Hrun; [|done].
    eapply IH; [|exact Hrun]. eapply Hbody; eauto.
Qed.

(** A loop whose iterations are simulated by a pure step runs to the end, and
    its final state is simulated by the fold of that step. *)
Lemma for_each_sim {A S T : Type} (R : S → T → Prop) (l : list A)
    (body : A → S → result S) (step : T → A → T) :
  (∀ a s t, a ∈ l → R s t → ∃ s', body a s = Ok s' ∧ R s' (step t a)) →
  ∀ s t, R s t → ∃ s', for_each l body s = Ok s' ∧ R s' (fold_left step l t).
Proof.
  induction l as [|a l IH]; intros Hbody s t HR; simpl.
  - by exists s.
  - destruct (Hbody a s t) as (s1 & Hs1 & HR1); [by left|done|].
    rewrite Hs1. simpl. apply IH; [|done].
    intros a' s' t' Hin. apply Hbody. by right.
Qed.

Lemma index_in_ok (n : nat) (z : Z) :
  (- Z.of_nat n ≤ z < Z.of_nat n)%Z →
  index_in n z = Ok (Convolution.norm_index n z) ∧ Convolution.norm_index n z < n.
Proof.
  intros Hz. unfold index_in, Convolution.norm_index.
  destruct (decide (0 ≤ z < Z.of_nat n)%Z) as [Hin|Hout].
  - rewrite decide_True by lia. split; [done|lia].
  - rewrite decide_True by lia. rewrite decide_False by lia. split; [done|lia].
Qed.

Lemma item_Some {A : Type} (a : list A) (i : nat) (x : A) :
  a !! i = Some x → item a i = Ok x.
Proof. intros Hx. unfold item. by rewrite Hx. Qed.

End LoopFacts.

(** ** Cells of an array *)

Module Array2Facts.
Import Loop Array2 LoopFacts.
Section Array2Facts.
Context {F : Type} `{Float64 F}.

Lemma holds_ext (n m : nat) (b : ndarray2 F) (g g' : nat → nat → F) :
  (∀ v p, v < n → p < m → g v p = g' v p) → holds n m b g → holds n m b g'.
Proof.
  intros Hg (Hn & Hm & Hwf & Hcells).
  split; [done|]. split; [done|]. split; [done|].
  intros v p Hv Hp. rewrite Hcells by done. by rewrite Hg.
Qed.

Lemma zeros_holds (n m : nat) : holds n m (zeros n m) (λ _ _, lit 0).
Proof.
  repeat split; simpl.
  - by rewrite length_replicate.
  - apply Forall_forall. intros r Hr. apply elem_of_replicate in Hr as [-> _].
    by rewrite length_replicate.
  - intros v p Hv Hp. unfold entry. simpl.
    rewrite (proj2 (lookup_replicate n _ _ v)) by done. simpl.
    by apply lookup_replicate.
Qed.

Lemma holds_get (n m : nat) (b : ndarray2 F) (g : nat → nat → F) (i j : nat) :
  holds n m b g → i < n → j < m →
  get b i j = Ok (g i j) ∧ nth j (nth i (rows b) []) (lit 0) = g i j.
Proof.
  intros (_ & _ & _ & Hcells) Hi Hj. specialize (Hcells i j Hi Hj).
  unfold entry in Hcells. unfold get, item.
  destruct (rows b !! i) as [row|] eqn:Hrow; simpl in *; [|done].
  rewrite Hcells. simpl. split; [done|].
  rewrite (nth_lookup_Some _ _ _ _ Hrow). by apply nth_lookup_Some.
Qed.

Lemma add_at_holds (n m : nat) (b : ndarray2 F) (g : nat → nat → F)
    (i j : nat) (x : F) :
  holds n m b g → i < n → j < m →
  ∃ b', add_at b i j x = Ok b' ∧
        holds n m b' (col_step j (λ v acc, if decide (v = i) then fadd acc x else acc) g).
Proof.
  intros (Hn & Hm & (Hlen & Hrows) & Hcells) Hi Hj.
  pose proof (Hcells i j Hi Hj) as Hij. unfold entry in Hij.
  destruct (rows b !! i) as [row|] eqn:Hrow; simpl in Hij; [|done].
  assert (length row = m) as Hrowlen.
  { rewrite <- Hm. eapply (proj1 (Forall_forall _ _) Hrows).
    by eapply list_elem_of_lookup_2. }
  unfold add_at, item. rewrite Hrow. simpl. rewrite Hij. simpl.
  eexists. split; [done|]. repeat split; simpl; try done.
  - by rewrite length_insert.
  - apply Forall_insert; [done|]. rewrite length_insert. by rewrite Hrowlen.
  - intros v p Hv Hp. unfold entry, col_step. simpl.
    destruct (decide (v = i)) as [->|Hvi].
    + rewrite list_lookup_insert_eq by lia. simpl.
      destruct (decide (p = j)) as [->|Hpj].
      * by rewrite list_lookup_insert_eq by lia.
      * rewrite list_lookup_insert_ne by done.
        specialize (Hcells i p Hv Hp). unfold entry in Hcells.
        by rewrite Hrow in Hcells.
    + rewrite list_lookup_insert_ne by done.
      specialize (Hcells v p Hv Hp). unfold entry in Hcells.
      rewrite Hcells. by destruct (decide (p = j)).
Qed.

(** Folding steps on one column acts on each cell of the column. *)
Lemma fold_col_step {A : Type} (p : nat) (c : A → nat → F → F) (l : list A)
    (g : nat → nat → F) (v p' : nat) :
  fold_left (λ g a, col_step p (c a) g) l g v p'
  = if decide (p' = p) then fold_left (λ acc a, c a v acc) l (g v p') else g v p'.
Proof.
  revert g. induction l as [|a l IH]; intros g; simpl.
  - by destruct (decide (p' = p)).
  - rewrite IH. unfold col_step. by destruct (decide (p' = p)).
Qed.

(** Folding one step per column of [range m] acts on every cell once. *)
Lemma fold_columns (c : nat → nat → F → F) (m : nat) (g : nat → nat → F)
    (v p : nat) :
  fold_left (λ g p, col_step p (c p) g) (range m) g v p
  = if decide (p < m) then c p v (g v p) else g v p.
Proof.
  unfold range. induction m as [|m IH]; [done|].
  rewrite seq_S, fold_left_app. simpl. unfold col_step at 1.
  rewrite IH. destruct (decide (p = m)) as [->|Hne].
  - rewrite decide_False by lia. by rewrite decide_True by lia.
  - destruct (decide (p < m)).
    + by rewrite decide_True by lia.
    + by rewrite decide_False by lia.
Qed.

End Array2Facts.
End Array2Facts.

(** ** Blurring a mapping matrix *)

Module ConvolutionFacts.
Import Loop Array2 Convolution LoopFacts Array2Facts.
Section ConvolutionFacts.
Context {F : Type} `{Float64 F}.

Lemma frame_ok_spec (n : nat) (idx : list Z) (ker : list F) (len : Z) :
  frame_ok n idx ker len = true →
  ∀ k, k < Z.to_nat len →
    ∃ z x, idx !! k = Some z ∧ ker !! k = Some x ∧
           (- Z.of_nat n ≤ z < Z.of_nat n)%Z.
Proof.
  unfold frame_ok. intros Hok k Hk.
  apply andb_true_iff in Hok as [Hok Hall].
  apply andb_true_iff in Hok as [Hidx Hker].
  apply Nat.leb_le in Hidx, Hker.
  destruct (lookup_lt_is_Some_2 idx k) as [z Hz]; [lia|].
  destruct (lookup_lt_is_Some_2 ker k) as [x Hx]; [lia|].
  exists z, x. split; [done|]. split; [done|].
  rewrite forallb_forall in Hall.
  assert (In z (take (Z.to_nat len) idx)) as Hin.
  { apply list_elem_of_In. eapply list_elem_of_lookup_2.
    apply lookup_take_Some. eauto. }
  apply Hall in Hin. apply andb_true_iff in Hin as [Hlo Hhi]. lia.
Qed.

Lemma frames_ok_spec (n : nat) (fr : Frames F) (i : nat) :
  frames_ok n fr = true → i < n →
  ∃ idx ker len,
    image_frame_indexes fr !! i = Some idx ∧
    image_frame_kernels fr !! i = Some ker ∧
    image_frame_lengths fr !! i = Some len ∧
    frame_ok n idx ker len = true.
Proof.
  unfold frames_ok. intros Hok Hi. rewrite forallb_forall in Hok.
  specialize (Hok i). rewrite <- list_elem_of_In, elem_of_seq in Hok.
  specialize (Hok ltac:(lia)).
  destruct (image_frame_indexes fr !! i) as [idx|]; [|done].
  destruct (image_frame_kernels fr !! i) as [ker|]; [|done].
  destruct (image_frame_lengths fr !! i) as [len|]; [|done].
  by exists idx, ker, len.
Qed.

Lemma tap_sum_taps (n : nat) (fr : Frames F) (value : F) (i v : nat) (acc : F)
    (idx : list Z) (ker : list F) (len : Z) :
  image_frame_indexes fr !! i = Some idx →
  image_frame_kernels fr !! i = Some ker →
  image_frame_lengths fr !! i = Some len →
  tap_sum n fr value i v acc = taps n value idx ker len v acc.
Proof.
  intros Hidx Hker Hlen. unfold tap_sum, taps.
  by rewrite (nth_lookup_Some _ _ _ _ Hidx), (nth_lookup_Some _ _ _ _ Hker),
    (nth_lookup_Some _ _ _ _ Hlen).
Qed.

(** The innermost loop adds the taps of one image pixel to column
    [pixel_index]. *)
Lemma kernel_loop_holds (n m : nat) (b : ndarray2 F) (g : nat → nat → F)
    (value : F) (idx : list Z) (ker : list F) (len : Z) (p : nat) :
  holds n m b g → frame_ok n idx ker len = true → p < m →
  ∃ b', kernel_loop value idx ker len p b = Ok b' ∧
        holds n m b' (col_step p (taps n value idx ker len) g).
Proof.
  intros Hb Hok Hp. unfold kernel_loop.
  assert (∃ b', for_each (range_int len) (λ kernel_index blurred,
              vector_index ← item idx kernel_index;
              kernel ← item ker kernel_index;
              i ← index_in (shape0 blurred) vector_index;
              add_at blurred i p (fmul value kernel)) b = Ok b' ∧
            holds n m b' (fold_left (λ g k, col_step p (λ v acc,
              if decide (v = norm_index n (nth k idx 0%Z))
              then fadd acc (fmul value (nth k ker (lit 0))) else acc) g)
              (range_int len) g)) as (b' & Hrun & Hrel).
  { apply (for_each_sim (holds n m)); [|done].
    intros k s t Hk Hs. unfold range_int in Hk. apply elem_of_seq in Hk.
    destruct (frame_ok_spec n idx ker len Hok k) as (z & x & Hz & Hx & Hrange);
      [lia|].
    rewrite (item_Some _ _ _ Hz), (item_Some _ _ _ Hx). cbn [mbind result_bind].
    rewrite (nth_lookup_Some _ _ _ _ Hz), (nth_lookup_Some _ _ _ _ Hx).
    destruct Hs as (Hn & Hs'). rewrite Hn.
    destruct (index_in_ok n z Hrange) as [-> Hlt]. cbn [mbind result_bind].
    apply add_at_holds; [by split|done|done]. }
  exists b'. split; [done|]. eapply holds_ext; [|exact Hrel].
  intros v p' _ _. rewrite fold_col_step. unfold col_step, taps. done.
Qed.

Lemma column_loop_holds (mm : ndarray2 F) (fr : Frames F) (gm : nat → nat → F)
    (b : ndarray2 F) (g : nat → nat → F) (p : nat) :
  holds (shape0 mm) (shape1 mm) mm gm →
  frames_ok (shape0 mm) fr = true →
  holds (shape0 mm) (shape1 mm) b g → p < shape1 mm →
  ∃ b', for_each (range (shape0 mm)) (λ image_index blurred,
          value ← get mm image_index p;
          if fgt value (lit 0) then
            frame_indexes ← item (image_frame_indexes fr) image_index;
            frame_kernels ← item (image_frame_kernels fr) image_index;
            frame_length ← item (image_frame_lengths fr) image_index;
            kernel_loop value frame_indexes frame_kernels frame_length p blurred
          else Ok blurred) b = Ok b' ∧
        holds (shape0 mm) (shape1 mm) b' (col_step p (column_cell mm fr p) g).
Proof.
  intros Hmm Hfr Hb Hp.
  assert (∃ b', for_each (range (shape0 mm)) (λ image_index blurred,
          value ← get mm image_index p;
          if fgt value (lit 0) then
            frame_indexes ← item (image_frame_indexes fr) image_index;
            frame_kernels ← item (image_frame_kernels fr) image_index;
            frame_length ← item (image_frame_lengths fr) image_index;
            kernel_loop value frame_indexes frame_kernels frame_length p blurred
          else Ok blurred) b = Ok b' ∧
        holds (shape0 mm) (shape1 mm) b' (fold_left (λ g i, col_step p (λ v acc,
          let value := nth p (nth i (rows mm) []) (lit 0) in
          if fgt value (lit 0) then tap_sum (shape0 mm) fr value i v acc else acc) g)
          (range (shape0 mm)) g)) as (b' & Hrun & Hrel).
  { apply (for_each_sim (holds (shape0 mm) (shape1 mm))); [|done].
    intros i s t Hi Hs. unfold range in Hi. apply elem_of_seq in Hi.
    destruct (holds_get _ _ _ _ i p Hmm) as [Hget Hnth]; [lia|done|].
    rewrite Hget. cbn [mbind result_bind]. cbn zeta. rewrite Hnth.
    destruct (fgt (gm i p) (lit 0)) eqn:Hpos.
    - destruct (frames_ok_spec _ fr i Hfr) as (idx & ker & len & Hidx & Hker & Hlen & Hok);
        [lia|].
      rewrite (item_Some _ _ _ Hidx), (item_Some _ _ _ Hker), (item_Some _ _ _ Hlen).
      cbn [mbind result_bind].
      destruct (kernel_loop_holds _ _ s t (gm i p) idx ker len p Hs Hok Hp)
        as (s' & Hs' & Hrel').
      exists s'. split; [done|]. eapply holds_ext; [|exact Hrel'].
      intros v p' _ _. unfold col_step. destruct (decide (p' = p)); [|done].
      symmetry. by apply tap_sum_taps.
    - exists s. split; [done|]. eapply holds_ext; [|exact Hs].
      intros v p' _ _. unfold col_step. by destruct (decide (p' = p)). }
  exists b'. split; [done|]. eapply holds_ext; [|exact Hrel].
  intros v p' _ _. rewrite fold_col_step. unfold col_step, column_cell. done.
Qed.

(** A rectangular array holds its own cells. *)
Lemma wf_holds (mm : ndarray2 F) :
  wf mm →
  holds (shape0 mm) (shape1 mm) mm (λ i j, nth j (nth i (rows mm) []) (lit 0)).
Proof.
  intros Hwf. split; [done|]. split; [done|]. split; [done|].
  destruct Hwf as [Hlen Hrows]. intros v p Hv Hp. unfold entry.
  destruct (lookup_lt_is_Some_2 (rows mm) v) as [row Hrow]; [lia|].
  rewrite Hrow. simpl. rewrite (nth_lookup_Some _ _ _ _ Hrow).
  assert (length row = shape1 mm) as Hrowlen.
  { eapply (proj1 (Forall_forall _ _) Hrows). by eapply list_elem_of_lookup_2. }
  destruct (lookup_lt_is_Some_2 row p) as [x Hx]; [lia|].
  by rewrite (nth_lookup_Some _ _ _ _ Hx).
Qed.

(** Functional correctness of the compiled loop: on a rectangular mapping
    matrix and frames that fit its image pixels it returns a rectangular
    array of the same shape whose cell [(v, p)] is [blurred_cell]. *)
Lemma convolve_matrix_jit_cells (mm : ndarray2 F) (fr : Frames F) :
  wf mm → frames_ok (shape0 mm) fr = true →
  ∃ b, convolve_matrix_jit mm fr = Ok b ∧
       holds (shape0 mm) (shape1 mm) b (blurred_cell mm fr).
Proof.
  intros Hwf Hfr. unfold convolve_matrix_jit. cbn zeta.
  pose proof (wf_holds mm Hwf) as Hmm.
  destruct (for_each_sim (holds (shape0 mm) (shape1 mm)) (range (shape1 mm))
    (λ pixel_index blurred,
      for_each (range (shape0 mm)) (λ image_index blurred,
        value ← get mm image_index pixel_index;
        if fgt value (lit 0) then
          frame_indexes ← item (image_frame_indexes fr) image_index;
          frame_kernels ← item (image_frame_kernels fr) image_index;
          frame_length ← item (image_frame_lengths fr) image_index;
          kernel_loop value frame_indexes frame_kernels frame_length pixel_index blurred
        else Ok blurred) blurred)
    (λ g p, col_step p (column_cell mm fr p) g)
    ) with (zeros (shape0 mm) (shape1 mm)) (λ _ _ : nat, lit 0)
    as (b & Hrun & Hrel).
  - intros p s t Hp Hs. unfold range in Hp. apply elem_of_seq in Hp.
    eapply column_loop_holds; eauto. lia.
  - apply zeros_holds.
  - exists b. split; [done|]. eapply holds_ext; [|exact Hrel].
    intros v p Hv Hp. rewrite fold_columns. by rewrite decide_True by done.
Qed.


(** *** Shape *)

Lemma add_at_same_shape (n m : nat) (b b' : ndarray2 F) (i j : nat) (x : F) :
  same_shape n m b → add_at b i j x = Ok b' → same_shape n m b'.
Proof.
  intros (Hn & Hm & Hlen & Hrows). unfold add_at, item.
  destruct (rows b !! i) as [row|] eqn:Hrow; simpl; [|done].
  destruct (row !! j) as [old|]; simpl; [|done].
  intros [= <-]. split; [done|]. split; [done|]. split; simpl.
  - by rewrite length_insert.
  - apply Forall_insert; [done|]. rewrite length_insert.
    eapply (proj1 (Forall_forall _ _) Hrows). by eapply list_elem_of_lookup_2.
Qed.

Lemma kernel_loop_same_shape (n m : nat) (b b' : ndarray2 F) (value : F)
    (idx : list Z) (ker : list F) (len : Z) (p : nat) :
  same_shape n m b → kernel_loop value idx ker len p b = Ok b' → same_shape n m b'.
Proof.
  unfold kernel_loop. apply for_each_inv. clear b b'.
  intros k b b' Hb.
  destruct (item idx k) as [z|]; simpl; [|done].
  destruct (item ker k) as [x|]; simpl; [|done].
  destruct (index_in (shape0 b) z) as [i|]; simpl; [|done].
  by apply add_at_same_shape.
Qed.

(** C7: the blurred mapping matrix has the shape
    (n_image_pixels, n_source_pixels) of the mapping matrix it was computed
    from, and is returned for every rectangular mapping matrix whose image
    pixels the frames of the convolver cover. *)
Theorem convolve_mapping_matrix_shape (mm : ndarray2 F) (fr : Frames F) :
  (∀ b, convolve_mapping_matrix fr mm = Ok b →
        shape0 b = shape0 mm ∧ shape1 b = shape1 mm ∧ wf b) ∧
  (wf mm → frames_ok (shape0 mm) fr = true →
   ∃ b, convolve_mapping_matrix fr mm = Ok b ∧
        shape0 b = shape0 mm ∧ shape1 b = shape1 mm ∧ wf b).
Proof.
  split.
  - intros b. unfold convolve_mapping_matrix, convolve_matrix_jit. cbn zeta.
    apply (for_each_inv (same_shape (shape0 mm) (shape1 mm))).
    + intros p s s' Hs. apply for_each_inv; [|done]. clear s s' Hs.
      intros i s s' Hs.
      destruct (get mm i p) as [value|]; simpl; [|done].
      destruct (fgt value (lit 0)); [|by intros [= <-]].
      destruct (item (image_frame_indexes fr) i) as [idx|]; simpl; [|done].
      destruct (item (image_frame_kernels fr) i) as [ker|]; simpl; [|done].
      destruct (item (image_frame_lengths fr) i) as [len|]; simpl; [|done].
      by apply kernel_loop_same_shape.
    + destruct (zeros_holds (F:=F) (shape0 mm) (shape1 mm)) as (Hn & Hm & Hz & _).
      split; [done|]. split; done.
  - intros Hwf Hfr.
    destruct (convolve_matrix_jit_cells mm fr Hwf Hfr) as (b & Hrun & Hn & Hm & Hb & _).
    by exists b.
Qed.

(** *** Entries that are not positive *)

Lemma get_clip_non_positive (mm : ndarray2 F) (i j : nat) :
  get (clip_non_positive mm) i j
  = value ← get mm i j; Ok (if fle value (lit 0) then lit 0 else value).
Proof.
  unfold get, item, clip_non_positive. simpl.
  rewrite list_lookup_fmap.
  destruct (rows mm !! i) as [row|]; simpl; [|done].
  rewrite list_lookup_fmap. by destruct (row !! j).
Qed.

(** C9: [convolve_mapping_matrix] treats every entry of the mapping matrix
    that is [<= 0] as zero: replacing those entries by 0 does not change what
    it returns (or raises). *)
Theorem convolve_mapping_matrix_ignores_non_positive
    (Hzero : ZeroTest F) (fr : Frames F) (mm : ndarray2 F) :
  convolve_mapping_matrix fr (clip_non_positive mm) = convolve_mapping_matrix fr mm.
Proof.
  unfold convolve_mapping_matrix, convolve_matrix_jit. cbn zeta.
  change (shape0 (clip_non_positive mm)) with (shape0 mm).
  change (shape1 (clip_non_positive mm)) with (shape1 mm).
  apply for_each_ext. intros p b. apply for_each_ext. intros i b'.
  rewrite get_clip_non_positive.
  destruct (get mm i p) as [value|]; simpl; [|done].
  destruct (fle value (lit 0)) eqn:Hle; [|done].
  by rewrite fgt_zero, (fle_not_fgt _ Hle).
Qed.


(** *** Direct convolution of an image vector *)

Lemma holds1_ext (n : nat) (y : list F) (h h' : nat → F) :
  (∀ v, v < n → h v = h' v) → holds1 n y h → holds1 n y h'.
Proof.
  intros Hh [Hlen Hcells]. split; [done|].
  intros v Hv. rewrite Hcells by done. by rewrite Hh.
Qed.

Lemma add_at1_holds (n : nat) (y : list F) (h : nat → F) (i : nat) (x : F) :
  holds1 n y h → i < n →
  ∃ y', add_at1 y i x = Ok y' ∧
        holds1 n y' (λ v, if decide (v = i) then fadd (h v) x else h v).
Proof.
  intros [Hlen Hcells] Hi. unfold add_at1.
  rewrite (item_Some _ _ _ (Hcells i Hi)). cbn [mbind result_bind].
  eexists. split; [done|]. split; [by rewrite length_insert|].
  intros v Hv. destruct (decide (v = i)) as [->|Hne].
  - by rewrite list_lookup_insert_eq by lia.
  - rewrite list_lookup_insert_ne by done. by apply Hcells.
Qed.

Lemma fold_pointwise {A : Type} (c : A → nat → F → F) (l : list A)
    (h : nat → F) (v : nat) :
  fold_left (λ h a, λ v, c a v (h v)) l h v
  = fold_left (λ acc a, c a v acc) l (h v).
Proof. revert h. induction l as [|a l IH]; intros h; simpl; [done|]. by rewrite IH. Qed.

(** The modelled [convolve] returns, on an image vector whose pixels the
    frames cover, the vector of the [convolved_pixel]s. *)
Lemma convolve_cells (fr : Frames F) (image_array : list F) :
  frames_ok (length image_array) fr = true →
  ∃ y, convolve fr image_array = Ok y ∧
       holds1 (length image_array) y (convolved_pixel fr image_array).
Proof.
  intros Hfr. unfold convolve. cbn zeta. set (n := length image_array) in *.
  assert (∃ y, for_each (range n) (λ image_index new_array,
      frame_indexes ← item (image_frame_indexes fr) image_index;
      frame_kernels ← item (image_frame_kernels fr) image_index;
      frame_length ← item (image_frame_lengths fr) image_index;
      value ← item image_array image_index;
      for_each (range_int frame_length) (λ kernel_index new_array,
        vector_index ← item frame_indexes kernel_index;
        kernel ← item frame_kernels kernel_index;
        i ← index_in (length new_array) vector_index;
        add_at1 new_array i (fmul value kernel)) new_array)
      (replicate n (lit 0)) = Ok y ∧
    holds1 n y (fold_left (λ h i, λ v,
      tap_sum n fr (nth i image_array (lit 0)) i v (h v)) (range n) (λ _, lit 0)))
    as (y & Hrun & Hrel).
  { apply (for_each_sim (holds1 n)).
    - intros i s t Hi Hs. unfold range in Hi. apply elem_of_seq in Hi.
      destruct (frames_ok_spec _ fr i Hfr) as (idx & ker & len & Hidx & Hker & Hlen & Hok);
        [lia|].
      rewrite (item_Some _ _ _ Hidx), (item_Some _ _ _ Hker), (item_Some _ _ _ Hlen).
      cbn [mbind result_bind].
      destruct (lookup_lt_is_Some_2 image_array i) as [value Hvalue]; [lia|].
      rewrite (item_Some _ _ _ Hvalue). cbn [mbind result_bind].
      rewrite (nth_lookup_Some _ _ _ _ Hvalue).
      assert (∃ s', for_each (range_int len) (λ kernel_index new_array,
          vector_index ← item idx kernel_index;
          kernel ← item ker kernel_index;
          i ← index_in (length new_array) vector_index;
          add_at1 new_array i (fmul value kernel)) s = Ok s' ∧
        holds1 n s' (fold_left (λ h k, λ v,
          if decide (v = norm_index n (nth k idx 0%Z))
          then fadd (h v) (fmul value (nth k ker (lit 0))) else h v)
          (range_int len) t)) as (s' & Hs' & Hrel').
      { apply (for_each_sim (holds1 n)); [|done].
        intros k s1 t1 Hk Hs1. unfold range_int in Hk. apply elem_of_seq in Hk.
        destruct (frame_ok_spec n idx ker len Hok k) as (z & x & Hz & Hx & Hrange);
          [lia|].
        rewrite (item_Some _ _ _ Hz), (item_Some _ _ _ Hx). cbn [mbind result_bind].
        rewrite (nth_lookup_Some _ _ _ _ Hz), (nth_lookup_Some _ _ _ _ Hx).
        destruct Hs1 as [Hlen1 Hcells1]. rewrite Hlen1.
        destruct (index_in_ok n z Hrange) as [-> Hlt]. cbn [mbind result_bind].
        apply add_at1_holds; [by split|done]. }
      exists s'. split; [done|]. eapply holds1_ext; [|exact Hrel'].
      intros v _.
      rewrite (fold_pointwise (λ k v acc,
        if decide (v = norm_index n (nth k idx 0%Z))
        then fadd acc (fmul value (nth k ker (lit 0))) else acc)).
      symmetry. by apply tap_sum_taps.
    - split; [by rewrite length_replicate|].
      intros v Hv. by apply lookup_replicate. }
  exists y. split; [done|]. eapply holds1_ext; [|exact Hrel].
  intros v _.
  by rewrite (fold_pointwise (λ i v acc,
    tap_sum n fr (nth i image_array (lit 0)) i v acc)).
Qed.


(** *** The identity mapping matrix *)

Lemma fold_left_ext_in {A B : Type} (f g : B → A → B) (l : list A) (b : B) :
  (∀ a b, a ∈ l → f b a = g b a) → fold_left f l b = fold_left g l b.
Proof.
  revert b. induction l as [|a l IH]; intros b Hfg; simpl; [done|].
  rewrite Hfg by (by left). apply IH. intros a' b' Hin. apply Hfg. by right.
Qed.

Lemma fold_single (c : F → F) (p n : nat) (acc : F) :
  fold_left (λ acc i, if decide (i = p) then c acc else acc) (seq 0 n) acc
  = if decide (p < n) then c acc else acc.
Proof.
  induction n as [|n IH]; [done|].
  rewrite seq_S, fold_left_app. simpl. rewrite IH.
  destruct (decide (n = p)) as [->|Hne].
  - rewrite decide_False by lia. by rewrite decide_True by lia.
  - destruct (decide (p < n)).
    + by rewrite decide_True by lia.
    + by rewrite decide_False by lia.
Qed.

Lemma fold_seq_big_sum (f : nat → F) (n : nat) :
  fold_left (λ acc i, fadd acc (f i)) (seq 0 n) (lit 0) = Fitting.big_sum n f.
Proof.
  induction n as [|n IH]; [done|].
  rewrite seq_S, fold_left_app. simpl. by rewrite IH.
Qed.

Lemma identity_wf (n : nat) : wf (identity (F:=F) n).
Proof.
  split; simpl.
  - by rewrite length_map, length_seq.
  - apply Forall_forall. intros r Hr. apply list_elem_of_fmap in Hr as (i & -> & _).
    by rewrite length_map, length_seq.
Qed.

Lemma identity_entry (n i p : nat) :
  i < n → p < n →
  nth p (nth i (rows (identity (F:=F) n)) []) (lit 0)
  = if Nat.eqb i p then lit 1 else lit 0.
Proof.
  intros Hi Hp. simpl.
  assert (seq 0 n !! i = Some i) as Hsi by (by apply lookup_seq).
  assert (seq 0 n !! p = Some p) as Hsp by (by apply lookup_seq).
  erewrite (nth_lookup_Some _ i); [|by rewrite list_lookup_fmap, Hsi].
  erewrite (nth_lookup_Some _ p); [|by rewrite list_lookup_fmap, Hsp].
  done.
Qed.

Section Exact.
Context (Hexact : ExactSemiring F) (Hzero : ZeroTest F).

Lemma fadd_0_r (a : F) : fadd a (lit 0) = a.
Proof. by rewrite fadd_comm, fadd_0_l. Qed.

(** The taps of a pixel are linear in the value of the pixel. *)
Lemma tap_sum_linear (n : nat) (fr : Frames F) (value : F) (i v : nat) (acc : F) :
  tap_sum n fr value i v acc
  = fadd acc (fmul (tap_sum n fr (lit 1) i v (lit 0)) value).
Proof.
  unfold tap_sum. cbn zeta.
  induction (range_int (nth i (image_frame_lengths fr) 0%Z)) as [|k ks IH]
    using rev_ind.
  - simpl. by rewrite fmul_0_l, fadd_0_r.
  - rewrite !fold_left_app. simpl.
    destruct (decide (v = norm_index n _)); [|done].
    rewrite IH, fmul_add_distr_r, fmul_1_l, fadd_assoc.
    by rewrite (fmul_comm value).
Qed.

(** Column [p] of the blurred identity holds the taps of image pixel [p]. *)
Lemma blurred_identity_cell (n : nat) (fr : Frames F) (v p : nat) :
  p < n →
  blurred_cell (identity n) fr v p = tap_sum n fr (lit 1) p v (lit 0).
Proof.
  intros Hp. unfold blurred_cell. cbn zeta.
  change (shape0 (identity n)) with n. unfold range.
  rewrite (fold_left_ext_in _
    (λ acc i, if decide (i = p) then tap_sum n fr (lit 1) p v acc else acc)).
  - rewrite fold_single. by rewrite decide_True by done.
  - intros i acc Hi. apply elem_of_seq in Hi.
    rewrite identity_entry by lia.
    destruct (decide (i = p)) as [->|Hne].
    + by rewrite Nat.eqb_refl, one_positive.
    + rewrite (proj2 (Nat.eqb_neq i p)) by done. by rewrite fgt_zero.
Qed.

(** A pixel of the convolved image is the sum over the image pixels of
    their unit taps times their value. *)
Lemma convolved_pixel_big_sum (fr : Frames F) (x : list F) (v : nat) :
  convolved_pixel fr x v
  = Fitting.big_sum (length x)
      (λ p, fmul (tap_sum (length x) fr (lit 1) p v (lit 0)) (Fitting.pixel x p)).
Proof.
  unfold convolved_pixel, range. rewrite <- fold_seq_big_sum.
  apply fold_left_ext_in. intros i acc _. by rewrite tap_sum_linear.
Qed.


End Exact.

End ConvolutionFacts.
End ConvolutionFacts.

(** ** Fit evaluations on the heap *)

Module FittingHeapFacts.
Import PyState FittingHeap.
Section FittingHeapFacts.
Context {F : Type} `{Float64 F}.
Variable np_log : F → F.
Variable np_pi : F.

Lemma alloc_returns (a : list F) (h : gmap nat (list F)) :
  returns_array (alloc a) h (Ok a).
Proof.
  exists (<[fresh (dom h) := a]> h). split.
  - apply insert_subseteq. apply not_elem_of_dom. apply is_fresh.
  - exists (fresh (dom h)). split; [done|]. by rewrite lookup_insert_eq.
Qed.

Lemma bind_value {A B : Type} (m : Py A) (k : A → Py B) (h : gmap nat (list F))
    (r : result A) (K : A → result B) :
  returns_value m h r →
  (∀ a h', h ⊆ h' → r = Ok a → returns_value (k a) h' (K a)) →
  returns_value (py_bind m k) h (r ≫= K).
Proof.
  intros (h1 & Hm & Hsub) Hk. unfold returns_value, py_bind. rewrite Hm.
  destruct r as [a|e]; simpl.
  - destruct (Hk a h1 Hsub eq_refl) as (h2 & Hk2 & Hsub2).
    exists h2. split; [done|]. by transitivity h1.
  - by exists h1.
Qed.

Lemma bind_array {B : Type} (m : Py loc) (k : loc → Py B) (h : gmap nat (list F))
    (r : result (list F)) (K : list F → result B) :
  returns_array m h r →
  (∀ l a h', h ⊆ h' → h' !! l = Some a → r = Ok a → returns_value (k l) h' (K a)) →
  returns_value (py_bind m k) h (r ≫= K).
Proof.
  intros (h1 & Hsub & Hm) Hk. unfold returns_value, py_bind.
  destruct r as [a|e]; simpl.
  - destruct Hm as (l & -> & Hl).
    destruct (Hk l a h1 Hsub Hl eq_refl) as (h2 & Hk2 & Hsub2).
    exists h2. split; [done|]. by transitivity h1.
  - rewrite Hm. by exists h1.
Qed.

Lemma bind_array_array (m : Py loc) (k : loc → Py loc) (h : gmap nat (list F))
    (r : result (list F)) (K : list F → result (list F)) :
  returns_array m h r →
  (∀ l a h', h ⊆ h' → h' !! l = Some a → r = Ok a → returns_array (k l) h' (K a)) →
  returns_array (py_bind m k) h (r ≫= K).
Proof.
  intros (h1 & Hsub & Hm) Hk. unfold returns_array, py_bind.
  destruct r as [a|e]; simpl.
  - destruct Hm as (l & -> & Hl).
    destruct (Hk l a h1 Hsub Hl eq_refl) as (h2 & Hsub2 & Hk2).
    exists h2. split; [by transitivity h1|done].
  - rewrite Hm. by exists h1.
Qed.

Lemma lift_value {A : Type} (r : result A) (h : gmap nat (list F)) :
  returns_value (py_lift r) h r.
Proof. by exists h. Qed.

Lemma ret_value {A : Type} (a : A) (h : gmap nat (list F)) :
  returns_value (py_ret a) h (Ok a).
Proof. by exists h. Qed.

Lemma read_value (l : loc) (a : list F) (h : gmap nat (list F)) :
  h !! l = Some a → returns_value (read l) h (Ok a).
Proof. intros Hl. exists h. unfold read. by rewrite Hl. Qed.

Lemma lift_alloc_array (r : result (list F)) (h : gmap nat (list F)) :
  returns_array (py_bind (py_lift r) alloc) h r.
Proof.
  destruct r as [a|e]; [apply alloc_returns|].
  by exists h.
Qed.

Lemma unary_array (f : list F → list F) (l : loc) (a : list F)
    (h : gmap nat (list F)) :
  h !! l = Some a → returns_array (unary f l) h (Ok (f a)).
Proof.
  intros Hl. unfold returns_array, unary, py_bind, read. rewrite Hl. simpl.
  apply alloc_returns.
Qed.

Lemma binary_array (f : list F → list F → result (list F)) (l1 l2 : loc)
    (a b : list F) (h : gmap nat (list F)) :
  h !! l1 = Some a → h !! l2 = Some b →
  returns_array (binary f l1 l2) h (f a b).
Proof.
  intros Hl1 Hl2.
  pose proof (lift_alloc_array (f a b) h) as Hla.
  unfold returns_array, binary, py_bind, read in *. rewrite Hl1, Hl2. simpl.
  exact Hla.
Qed.

Lemma np_sum_value (l : loc) (a : list F) (h : gmap nat (list F)) :
  h !! l = Some a → returns_value (np_sum l) h (Ok (Np.sum a)).
Proof. intros Hl. exists h. unfold np_sum, py_bind, read. by rewrite Hl. Qed.


(** On the heap [compute_chi_sq_term] returns what the array-level function
    computes from the contents of its three arguments. *)
Lemma compute_chi_sq_term_value (image noise model_image : loc)
    (a n m : list F) (h : gmap nat (list F)) :
  h !! image = Some a → h !! noise = Some n → h !! model_image = Some m →
  returns_value (compute_chi_sq_term image noise model_image) h
    (Fitting.compute_chi_sq_term a n m).
Proof.
  intros Ha Hn Hm. unfold compute_chi_sq_term, view_float.
  change (returns_value
    (py_bind (np_negative model_image) (λ minus_model,
     py_bind (np_add image minus_model) (λ residuals,
     py_bind (np_true_divide residuals noise) (λ scaled,
     py_bind (np_power2 scaled) (λ squares, np_sum squares))))) h
    (Ok (Np.negative m) ≫= λ nm,
       Np.add a nm ≫= λ res,
       Np.true_divide res n ≫= λ sc,
       Ok (Np.power2 sc) ≫= λ sq, Ok (Np.sum sq))).
  apply bind_array; [by apply unary_array|].
  intros l1 a1 h1 Hsub1 Hl1 [= <-].
  apply bind_array.
  { apply binary_array; [by eapply lookup_weaken|done]. }
  intros l2 a2 h2 Hsub2 Hl2 Hadd.
  apply bind_array.
  { apply binary_array; [done|].
    eapply lookup_weaken; [exact Hn|]. by transitivity h1. }
  intros l3 a3 h3 Hsub3 Hl3 Hdiv.
  apply bind_array; [by apply unary_array|].
  intros l4 a4 h4 Hsub4 Hl4 [= <-].
  by apply np_sum_value.
Qed.

Lemma compute_noise_term_value (noise : loc) (n : list F) (h : gmap nat (list F)) :
  h !! noise = Some n →
  returns_value (compute_noise_term np_log np_pi noise) h
    (Ok (Fitting.compute_noise_term np_log np_pi n)).
Proof.
  intros Hn. unfold compute_noise_term.
  change (returns_value
    (py_bind (np_power2 noise) (λ squares,
     py_bind (np_scale (fmul (lit 2) np_pi) squares) (λ scaled,
     py_bind (np_log_array np_log scaled) (λ logs, np_sum logs)))) h
    (Ok (Np.power2 n) ≫= λ sq,
       Ok (Np.scale (fmul (lit 2) np_pi) sq) ≫= λ sc,
       Ok (map np_log sc) ≫= λ lg, Ok (Np.sum lg))).
  apply bind_array; [by apply unary_array|].
  intros l1 a1 h1 Hsub1 Hl1 [= <-].
  apply bind_array; [by apply unary_array|].
  intros l2 a2 h2 Hsub2 Hl2 [= <-].
  apply bind_array; [by apply unary_array|].
  intros l3 a3 h3 Hsub3 Hl3 [= <-].
  by apply np_sum_value.
Qed.

Lemma compute_likelihood_value (image noise model_image : loc)
    (a n m : list F) (h : gmap nat (list F)) :
  h !! image = Some a → h !! noise = Some n → h !! model_image = Some m →
  returns_value (compute_likelihood np_log np_pi image noise model_image) h
    (Fitting.compute_likelihood np_log np_pi a n m).
Proof.
  intros Ha Hn Hm. unfold compute_likelihood, Fitting.compute_likelihood.
  apply bind_value; [by apply compute_chi_sq_term_value|].
  intros chi_sq h1 Hsub1 _.
  change (returns_value
    (py_bind (compute_noise_term np_log np_pi noise) (λ noise_term,
       py_ret (fmul (lit (-0.5)) (fadd chi_sq noise_term)))) h1
    (Ok (Fitting.compute_noise_term np_log np_pi n) ≫= λ noise_term,
       Ok (fmul (lit (-0.5)) (fadd chi_sq noise_term)))).
  apply bind_value.
  { apply compute_noise_term_value. by eapply lookup_weaken. }
  intros noise_term h2 Hsub2 _. apply ret_value.
Qed.

Lemma compute_pixelization_evidence_value {M : Type} (image noise model_image : loc)
    (pix_fit : Fitting.PixFit M) (a n m : list F) (h : gmap nat (list F)) :
  h !! image = Some a → h !! noise = Some n → h !! model_image = Some m →
  returns_value (compute_pixelization_evidence np_log np_pi image noise model_image pix_fit) h
    (Fitting.compute_pixelization_evidence np_log np_pi a n m pix_fit).
Proof.
  intros Ha Hn Hm.
  unfold compute_pixelization_evidence, Fitting.compute_pixelization_evidence.
  apply bind_value; [by apply compute_chi_sq_term_value|].
  intros chi_sq h1 Hsub1 _.
  apply bind_value; [apply lift_value|]. intros reg_term h2 Hsub2 _.
  apply bind_value; [apply lift_value|]. intros ld_cov_reg h3 Hsub3 _.
  apply bind_value; [apply lift_value|]. intros ld_reg h4 Hsub4 _.
  change (returns_value
    (py_bind (compute_noise_term np_log np_pi noise) (λ noise_term,
       py_ret (fmul (lit (-0.5))
         (fadd (fsub (fadd (fadd chi_sq reg_term) ld_cov_reg) ld_reg) noise_term)))) h4
    (Ok (Fitting.compute_noise_term np_log np_pi n) ≫= λ noise_term,
       Ok (fmul (lit (-0.5))
         (fadd (fsub (fadd (fadd chi_sq reg_term) ld_cov_reg) ld_reg) noise_term)))).
  apply bind_value.
  { apply compute_noise_term_value. eapply lookup_weaken; [exact Hn|].
    transitivity h1; [done|]. transitivity h2; [done|]. by transitivity h3. }
  intros noise_term h5 Hsub5 _. apply ret_value.
Qed.


Lemma bind_value_array {A : Type} (m : Py A) (k : A → Py loc)
    (h : gmap nat (list F)) (r : result A) (K : A → result (list F)) :
  returns_value m h r →
  (∀ a h', h ⊆ h' → r = Ok a → returns_array (k a) h' (K a)) →
  returns_array (py_bind m k) h (r ≫= K).
Proof.
  intros (h1 & Hm & Hsub) Hk. unfold returns_array, py_bind. rewrite Hm.
  destruct r as [a|e]; simpl.
  - destruct (Hk a h1 Hsub eq_refl) as (h2 & Hsub2 & Hk2).
    exists h2. split; [by transitivity h1|done].
  - by exists h1.
Qed.

Lemma generate_blurred_light_profile_image_array {Mapping M : Type}
    (tracer : Tracer F Mapping M) (kernel_convolver : KernelConvolver F)
    (mapping : Mapping) (h : gmap nat (list F)) :
  returns_array (generate_blurred_light_profile_image tracer kernel_convolver mapping) h
    (a ← generate_image_of_galaxy_light_profiles tracer mapping;
     b ← generate_blurring_image_of_galaxy_light_profiles tracer;
     convolve_array kernel_convolver a b).
Proof.
  unfold generate_blurred_light_profile_image, blur_image_including_blurring_region.
  apply bind_value_array; [apply lift_value|]. intros a h1 Hsub1 _.
  change (returns_array
    (py_bind (alloc a) (λ image_light_profile,
     py_bind (py_lift (generate_blurring_image_of_galaxy_light_profiles tracer)) (λ b,
     py_bind (alloc b) (λ blurring_image_light_profile,
       binary (convolve_array kernel_convolver) image_light_profile
         blurring_image_light_profile)))) h1
    (Ok a ≫= λ a,
       generate_blurring_image_of_galaxy_light_profiles tracer ≫= λ b,
       convolve_array kernel_convolver a b)).
  apply bind_array_array; [apply alloc_returns|].
  intros l1 a1 h2 Hsub2 Hl1 [= <-].
  apply bind_value_array; [apply lift_value|]. intros b h3 Hsub3 _.
  change (returns_array
    (py_bind (alloc b) (λ blurring_image_light_profile,
       binary (convolve_array kernel_convolver) l1 blurring_image_light_profile)) h3
    (Ok b ≫= λ b, convolve_array kernel_convolver a b)).
  apply bind_array_array; [apply alloc_returns|].
  intros l2 b2 h4 Hsub4 Hl2 [= <-].
  apply binary_array; [|done].
  eapply lookup_weaken; [exact Hl1|]. by transitivity h3.
Qed.

Lemma fit_data_with_profiles_returns {Mapping M : Type} (image : Image)
    (kernel_convolver : KernelConvolver F) (tracer : Tracer F Mapping M)
    (mapping : Mapping) (iv nv : list F) (h : gmap nat (list F)) :
  h !! pixels image = Some iv → h !! background_noise image = Some nv →
  returns_value
    (fit_data_with_profiles np_log np_pi image kernel_convolver tracer mapping) h
    (fit_data_with_profiles_value np_log np_pi iv nv kernel_convolver tracer mapping).
Proof.
  intros Hiv Hnv. unfold fit_data_with_profiles, fit_data_with_profiles_value.
  assert ((a ← generate_image_of_galaxy_light_profiles tracer mapping;
           b ← generate_blurring_image_of_galaxy_light_profiles tracer;
           blurred_model_image ← convolve_array kernel_convolver a b;
           Fitting.compute_likelihood np_log np_pi iv nv blurred_model_image)
          = (a ← generate_image_of_galaxy_light_profiles tracer mapping;
             b ← generate_blurring_image_of_galaxy_light_profiles tracer;
             convolve_array kernel_convolver a b) ≫= λ blurred_model_image,
               Fitting.compute_likelihood np_log np_pi iv nv blurred_model_image)
    as ->.
  { destruct (generate_image_of_galaxy_light_profiles tracer mapping); [|done].
    simpl. by destruct (generate_blurring_image_of_galaxy_light_profiles tracer). }
  apply bind_array; [apply generate_blurred_light_profile_image_array|].
  intros l a h1 Hsub1 Hl _.
  apply compute_likelihood_value; [by eapply lookup_weaken..|done].
Qed.

Lemma fit_data_with_pixelization_returns {Mapping M : Type} (image : Image)
    (kernel_convolver : KernelConvolver F) (tracer : Tracer F Mapping M)
    (mapping : Mapping) (iv nv : list F) (h : gmap nat (list F)) :
  h !! pixels image = Some iv → h !! background_noise image = Some nv →
  returns_value
    (fit_data_with_pixelization np_log np_pi image kernel_convolver tracer mapping) h
    (fit_data_with_pixelization_value np_log np_pi iv nv kernel_convolver tracer mapping).
Proof.
  intros Hiv Hnv. unfold fit_data_with_pixelization, fit_data_with_pixelization_value.
  apply bind_value; [apply lift_value|]. intros pix_pre_fit h1 Hsub1 _.
  change (returns_value
    (py_bind (read (pixels image)) (λ image_values,
     py_bind (read (background_noise image)) (λ noise_values,
     py_bind (py_lift (fit_image_via_inversion pix_pre_fit image_values noise_values
                         kernel_convolver)) (λ pix_fit,
     py_bind (py_lift (Fitting.model_image_from_reconstruction pix_fit)) (λ m,
     py_bind (alloc m) (λ model_image,
       compute_pixelization_evidence np_log np_pi (pixels image)
         (background_noise image) model_image pix_fit)))))) h1
    (Ok iv ≫= λ image_values, Ok nv ≫= λ noise_values,
     fit_image_via_inversion pix_pre_fit image_values noise_values kernel_convolver
       ≫= λ pix_fit,
     Fitting.model_image_from_reconstruction pix_fit ≫= λ model_image,
     Fitting.compute_pixelization_evidence np_log np_pi iv nv model_image pix_fit)).
  apply bind_value; [apply read_value; by eapply lookup_weaken|].
  intros iv' h2 Hsub2 [= <-].
  apply bind_value.
  { apply read_value. eapply lookup_weaken; [exact Hnv|]. by transitivity h1. }
  intros nv' h3 Hsub3 [= <-].
  apply bind_value; [apply lift_value|]. intros pix_fit h4 Hsub4 _.
  apply bind_value; [apply lift_value|]. intros m h5 Hsub5 _.
  change (returns_value
    (py_bind (alloc m) (λ model_image,
       compute_pixelization_evidence np_log np_pi (pixels image)
         (background_noise image) model_image pix_fit)) h5
    (Ok m ≫= λ model_image,
       Fitting.compute_pixelization_evidence np_log np_pi iv nv model_image pix_fit)).
  apply bind_array; [apply alloc_returns|].
  intros l a h6 Hsub6 Hl [= <-].
  assert (h ⊆ h6) as Hsub.
  { transitivity h1; [done|]. transitivity h2; [done|]. transitivity h3; [done|].
    transitivity h4; [done|]. by transitivity h5. }
  apply compute_pixelization_evidence_value; [by eapply lookup_weaken..|done].
Qed.



End FittingHeapFacts.
End FittingHeapFacts.

(** ** The deep copy shares nothing with the original *)

Module DeepcopyFacts.
Import PyState Hyper.

Lemma copy_inv_init (h : gmap nat obj) : copy_inv h (∅, h).
Proof.
  split; [done|]. split; simpl.
  - intros l c Hl. by rewrite lookup_empty in Hl.
  - intros x o y Hx Ho _. destruct Hx. apply elem_of_dom. by exists o.
Qed.

(** Writing an object that refers to new objects only at a new address. *)
Lemma copy_inv_insert (h0 : gmap nat obj) (memo : gmap nat nat)
    (h : gmap nat obj) (c : nat) (o : obj) :
  copy_inv h0 (memo, h) → c ∉ dom h0 →
  (∀ y, points_to o y → is_new h0 (memo, h) y) →
  copy_inv h0 (memo, <[c := o]> h).
Proof.
  intros (Hsub & Hmemo & Hnew) Hc Ho. unfold copy_inv, is_new in *. simpl in *.
  assert (∀ y, y ∈ dom h → y ∈ dom (<[c := o]> h)) as Hgrow.
  { intros y Hy. rewrite dom_insert_L. by apply elem_of_union_r. }
  split; [|split].
  - apply insert_subseteq_r; [|done]. by apply not_elem_of_dom.
  - intros l c' Hl. destruct (Hmemo l c' Hl). auto.
  - intros x o' y Hx Hlook Hpt. destruct (decide (x = c)) as [->|Hne].
    + rewrite lookup_insert_eq in Hlook.
      assert (o' = o) as -> by congruence.
      destruct (Ho y Hpt). auto.
    + rewrite lookup_insert_ne in Hlook by done.
      destruct (Hnew x o' y Hx Hlook Hpt). auto.
Qed.

Lemma copy_inv_memo (h0 : gmap nat obj) (memo : gmap nat nat)
    (h : gmap nat obj) (l c : nat) :
  copy_inv h0 (memo, h) → is_new h0 (memo, h) c →
  copy_inv h0 (<[l := c]> memo, h).
Proof.
  intros (Hsub & Hmemo & Hnew) Hc. unfold copy_inv, is_new in *. simpl in *.
  split; [done|]. split; [|done].
  intros l' c' Hl. destruct (decide (l' = l)) as [->|Hne].
  - rewrite lookup_insert_eq in Hl. by injection Hl as <-.
  - rewrite lookup_insert_ne in Hl by done. by apply (Hmemo l').
Qed.

Lemma map_state_ok (h0 : gmap nat obj)
    (f : nat → gmap nat nat * gmap nat obj → result nat * (gmap nat nat * gmap nat obj))
    (l : list nat) (st : gmap nat nat * gmap nat obj) :
  copy_step_ok h0 f → copy_inv h0 st →
  copy_inv h0 (map_state f l st).2 ∧ dom st.2 ⊆ dom (map_state f l st).2.2 ∧
  ∀ cs, (map_state f l st).1 = Ok cs → Forall (is_new h0 (map_state f l st).2) cs.
Proof.
  intros Hf. revert st. induction l as [|a l IH]; intros st Hinv; simpl.
  - split; [done|]. split; [done|]. by intros cs [= <-].
  - destruct (Hf a st Hinv) as (Hinv1 & Hdom1 & Hres1).
    destruct (f a st) as [[b|e] st1]; simpl in *.
    + destruct (IH st1 Hinv1) as (Hinv2 & Hdom2 & Hres2).
      destruct (map_state f l st1) as [[bs|e] st2]; simpl in *.
      * split; [done|]. split; [by etrans|].
        intros cs [= <-]. constructor; [|by apply Hres2].
        destruct (Hres1 b eq_refl) as [Hb1 Hb2]. split; [by apply Hdom2|done].
      * split; [done|]. split; [by etrans|]. by intros cs [=].
    + split; [done|]. split; [done|]. by intros cs [=].
Qed.

Lemma points_to_copied (keys : list string) (values : list nat) (y : nat)
    (h0 : gmap nat obj) (st : gmap nat nat * gmap nat obj) :
  Forall (is_new h0 st) values →
  (∃ k, (list_to_map (zip keys values) : gmap string nat) !! k = Some y) →
  is_new h0 st y.
Proof.
  intros Hall [k Hk]. apply elem_of_list_to_map_2 in Hk.
  apply elem_of_zip_r in Hk. by apply (proj1 (Forall_forall _ _) Hall).
Qed.

Lemma is_new_grow (h0 : gmap nat obj) (memo memo' : gmap nat nat)
    (h h' : gmap nat obj) (c : nat) :
  dom h ⊆ dom h' → is_new h0 (memo, h) c → is_new h0 (memo', h') c.
Proof. intros Hdom [Hc1 Hc2]. split; [by apply Hdom|done]. Qed.

Lemma deepcopy_memo_ok (h0 : gmap nat obj) (depth : nat) :
  copy_step_ok h0 (deepcopy_memo depth).
Proof.
  induction depth as [|depth IH]; intros l [memo h] Hinv; simpl.
  { split; [done|]. split; [done|]. by intros c [=]. }
  destruct (memo !! l) as [c0|] eqn:Hhit; simpl.
  { split; [done|]. split; [done|]. intros c [= <-].
    destruct Hinv as (_ & Hmemo & _). by apply (Hmemo l). }
  set (c := fresh (dom h)).
  assert (c ∉ dom h) as Hfresh by apply is_fresh.
  assert (c ∉ dom h0) as Hc0.
  { intros Hin. apply Hfresh. destruct Hinv as (Hsub & _).
    by apply (subseteq_dom _ _ Hsub). }
  assert (∀ o, dom h ⊆ dom (<[c := o]> h)) as Hgrow.
  { intros o. rewrite dom_insert_L. apply union_subseteq_r. }
  assert (∀ o, (∀ y, ¬ points_to o y) →
            copy_inv h0 (<[l := c]> memo, <[c := o]> h)) as Hplace.
  { intros o Hno. apply copy_inv_memo.
    - apply copy_inv_insert; [done..|]. intros y Hy. by destruct (Hno y).
    - split; [|done]. simpl. rewrite dom_insert_L.
      apply elem_of_union_l. by apply elem_of_singleton. }
  destruct (h !! l) as [[attrs|lst d|z]|] eqn:Hl; simpl.
  - (* a result: its attribute values are copied *)
    assert (copy_inv h0 (<[l := c]> memo, <[c := Result ∅]> h)) as Hinv1.
    { apply Hplace. by intros y [k Hk]. }
    destruct (map_state_ok h0 (deepcopy_memo depth) (map_to_list attrs).*2 _ IH Hinv1)
      as (Hinv2 & Hdom2 & Hres2).
    destruct (map_state (deepcopy_memo depth) (map_to_list attrs).*2
                (<[l := c]> memo, <[c := Result ∅]> h)) as [[values|e] [memo2 h2]];
      simpl in *.
    + specialize (Hres2 values eq_refl).
      assert (dom h2 ⊆ dom (<[c := Result (list_to_map
                (zip (map_to_list attrs).*1 values))]> h2)) as Hgrow2.
      { rewrite dom_insert_L. apply union_subseteq_r. }
      split; [|split].
      * apply copy_inv_insert; [done..|]. intros y Hy.
        by eapply points_to_copied.
      * etrans; [apply (Hgrow (Result ∅))|]. by etrans.
      * intros c' [= <-]. split; [|done]. simpl. rewrite dom_insert_L.
        apply elem_of_union_l. by apply elem_of_singleton.
    + split; [done|]. split; [|by intros c' [=]].
      etrans; [apply (Hgrow (Result ∅))|]. done.
  - (* a collection: its list and the values of its dictionary are copied *)
    assert (copy_inv h0 (<[l := c]> memo, <[c := Collection [] ∅]> h)) as Hinv1.
    { apply Hplace. intros y [Hy|[k Hk]]; [by apply elem_of_nil in Hy|done]. }
    destruct (map_state_ok h0 (deepcopy_memo depth) lst _ IH Hinv1)
      as (Hinv2 & Hdom2 & Hres2).
    destruct (map_state (deepcopy_memo depth) lst
                (<[l := c]> memo, <[c := Collection [] ∅]> h)) as [[lst'|e] [memo2 h2]];
      simpl in *.
    + specialize (Hres2 lst' eq_refl).
      destruct (map_state_ok h0 (deepcopy_memo depth) (map_to_list d).*2 _ IH Hinv2)
        as (Hinv3 & Hdom3 & Hres3).
      destruct (map_state (deepcopy_memo depth) (map_to_list d).*2 (memo2, h2))
        as [[values|e] [memo3 h3]]; simpl in *.
      * specialize (Hres3 values eq_refl).
        split; [|split].
        -- apply copy_inv_insert; [done..|]. intros y [Hy|Hy].
           ++ eapply is_new_grow; [exact Hdom3|].
              by apply (proj1 (Forall_forall _ _) Hres2).
           ++ by eapply points_to_copied.
        -- etrans; [apply (Hgrow (Collection [] ∅))|]. etrans; [exact Hdom2|].
           etrans; [exact Hdom3|]. rewrite dom_insert_L. apply union_subseteq_r.
        -- intros c' [= <-]. split; [|done]. simpl. rewrite dom_insert_L.
        apply elem_of_union_l. by apply elem_of_singleton.
      * split; [done|]. split; [|by intros c' [=]].
        etrans; [apply (Hgrow (Collection [] ∅))|]. by etrans.
    + split; [done|]. split; [|by intros c' [=]].
      etrans; [apply (Hgrow (Collection [] ∅))|]. done.
  - (* data *)
    split; [|split].
    + apply Hplace. by intros y Hy.
    + apply Hgrow.
    + intros c' [= <-]. split; [|done]. simpl. rewrite dom_insert_L.
        apply elem_of_union_l. by apply elem_of_singleton.
  - split; [done|]. split; [done|]. by intros c' [=].
Qed.

(** From a new object only new objects are reached. *)
Lemma reach_new (h0 : gmap nat obj) (st : gmap nat nat * gmap nat obj) (x y : nat) :
  copy_inv h0 st → x ∉ dom h0 → reach st.2 x y → y ∉ dom h0.
Proof.
  intros (_ & _ & Hnew) Hx Hreach. induction Hreach as [x|x o x' y Ho Hpt _ IH]; [done|].
  apply IH. by destruct (Hnew x o x' Hx Ho Hpt).
Qed.

(** The deep copy keeps the contract [HyperPhase.run] relies on. *)
Lemma deepcopy_isolates : deepcopy_contract deepcopy.
Proof.
  intros l h. unfold deepcopy. simpl.
  destruct (deepcopy_memo_ok h (S (size h)) l (∅, h) (copy_inv_init h))
    as (Hinv & _ & Hres).
  split; [apply Hinv|].
  intros c Hc l' Hreach. destruct (Hres c Hc) as [_ Hnew].
  by eapply reach_new.
Qed.

End DeepcopyFacts.

(** ** The frame of a hyper phase *)

Module HyperFacts.
Import PyState Hyper DeepcopyFacts.

Lemma keep_in_dom (keep : gset nat) (h h' : gmap nat obj) :
  keep ⊆ dom h → (∀ l, l ∈ keep → h' !! l = h !! l) → keep ⊆ dom h'.
Proof.
  intros Hdom Hsame l Hl. apply elem_of_dom. rewrite Hsame by done.
  apply elem_of_dom. by apply Hdom.
Qed.

Lemma subseteq_same (keep : gset nat) (h h' : gmap nat obj) :
  keep ⊆ dom h → h ⊆ h' → ∀ l, l ∈ keep → h' !! l = h !! l.
Proof.
  intros Hdom Hsub l Hl. apply Hdom, elem_of_dom in Hl as [o Ho].
  rewrite Ho. by eapply lookup_weaken.
Qed.

(** A new collection shares nothing with the heap it is allocated in. *)
Lemma new_results_collection_fresh (h : gmap nat obj) :
  h ⊆ (new_results_collection h).2 ∧
  ∀ c, (new_results_collection h).1 = Ok c →
       ∀ l', reach (new_results_collection h).2 c l' → l' ∉ dom h.
Proof.
  unfold new_results_collection, alloc. simpl.
  pose proof (is_fresh (dom h)) as Hfresh. split.
  - apply insert_subseteq. by apply not_elem_of_dom.
  - intros c [= <-] l' Hreach. inversion Hreach as [|? o l1 ? Ho Hpt _]; subst; [done|].
    rewrite lookup_insert_eq in Ho. injection Ho as <-.
    destruct Hpt as [Hin|[k Hk]]; [by apply elem_of_nil in Hin|done].
Qed.

(** After [results.add(name, r)], what the heap reaches was reachable
    before, or is reachable from [r]. *)
Lemma reach_add (h : gmap nat obj) (c r : nat) (name : string)
    (lst : list nat) (d : gmap string nat) (x l : nat) :
  h !! c = Some (Collection lst d) →
  reach (<[c := Collection (lst ++ [r]) (<[name := r]> d)]> h) x l →
  reach h x l ∨ reach h r l.
Proof.
  intros Hc Hreach. induction Hreach as [x|x o y l Ho Hpt _ IH].
  - left. constructor.
  - destruct IH as [IH|IH]; [|by right].
    destruct (decide (x = c)) as [->|Hne].
    + rewrite lookup_insert_eq in Ho. injection Ho as <-.
      destruct Hpt as [Hin|[k Hk]].
      * apply elem_of_app in Hin as [Hin|Hin].
        -- left. eapply reach_step; [exact Hc| |exact IH]. by left.
        -- apply list_elem_of_singleton in Hin as ->. by right.
      * destruct (decide (k = name)) as [->|Hk'].
        -- rewrite lookup_insert_eq in Hk. injection Hk as <-. by right.
        -- rewrite lookup_insert_ne in Hk by done.
           left. eapply reach_step; [exact Hc| |exact IH]. right. by exists k.
    + rewrite lookup_insert_ne in Ho by done.
      left. by eapply reach_step.
Qed.

Section Frame.
Variable keep : gset nat.
Variable self : HyperPhase.
Hypothesis phase_ok : respects keep (phase_run (phase self)).
Hypothesis hyper_ok : respects keep (run_hyper self).

(** The collection the phase is handed: a deep copy, or a new one. *)
Lemma working_copy_isolated (results : option nat) (h : gmap nat obj) :
  keep ⊆ dom h →
  let m := match results with
           | Some r => deepcopy r
           | None => new_results_collection
           end in
  (∀ l, l ∈ keep → (m h).2 !! l = h !! l) ∧
  ∀ c, (m h).1 = Ok c → isolated (m h).2 c keep.
Proof.
  intros Hdom m.
  assert (h ⊆ (m h).2 ∧ ∀ c, (m h).1 = Ok c → ∀ l', reach (m h).2 c l' → l' ∉ dom h)
    as [Hsub Hfresh].
  { subst m. destruct results as [r|]; [apply deepcopy_isolates|].
    apply new_results_collection_fresh. }
  split; [by apply subseteq_same|].
  intros c Hc l Hreach Hl. by apply (Hfresh c Hc l Hreach), Hdom.
Qed.



End Frame.
End HyperFacts.

(** ** Which numbers satisfy which laws *)

Module Laws.

(** *** Binary64 floats *)

Lemma SF64sub_add_opp (x y : spec_float) : SF64sub x y = SF64add x (SFopp y).
Proof.
  destruct x as [sx|sx| |sx mx ex], y as [sy|sy| |sy my ey]; try reflexivity;
    by destruct sx, sy.
Qed.

#[export] Instance float_sub : SubIsAddNeg float.
Proof.
  intros a b. simpl. apply Prim2SF_inj.
  by rewrite sub_spec, add_spec, opp_spec, SF64sub_add_opp.
Qed.

(** Also of a NaN: it is neither [<= 0] nor [> 0]. *)
#[export] Instance float_zero_test : ZeroTest float.
Proof.
  split.
  - reflexivity.
  - intros x. simpl. rewrite leb_spec, ltb_spec.
    change (Prim2SF (float_lit 0)) with (S754_zero false).
    unfold SFleb, SFltb.
    destruct (Prim2SF x) as [s|s| |s m e]; simpl; try done; by destruct s.
Qed.

(** Floating-point addition is not associative: statements proved from
    [ExactSemiring] describe the floating-point program up to rounding. *)
Remark float_not_exact : ¬ ExactSemiring float.
Proof.
  intros Hexact.
  pose proof (fadd_assoc (float_lit 0.1) (float_lit 0.2) (float_lit 0.3)) as Hassoc.
  vm_compute in Hassoc. discriminate Hassoc.
Qed.

(** *** Exact rationals *)

#[export] Instance Qc_sub : SubIsAddNeg Qc.
Proof. intros a b. reflexivity. Qed.

#[export] Instance Qc_zero_test : ZeroTest Qc.
Proof.
  split.
  - reflexivity.
  - intros x. simpl. by destruct (x ?= Q2Qc 0)%Qc.
Qed.

#[export] Instance Qc_exact : ExactSemiring Qc.
Proof.
  split; simpl.
  - apply Qcplus_comm.
  - apply Qcplus_assoc.
  - apply Qcplus_0_l.
  - apply Qcmult_comm.
  - apply Qcmult_1_l.
  - apply Qcmult_0_l.
  - apply Qcmult_plus_distr_l.
  - reflexivity.
Qed.

(** *** Real numbers *)

#[export] Instance real_sub : SubIsAddNeg Rdefinitions.R.
Proof. intros a b. reflexivity. Qed.

#[export] Instance real_zero_test : ZeroTest Rdefinitions.R.
Proof.
  split; simpl.
  - destruct (RIneq.Rlt_dec (Rdefinitions.Q2R 0) (Rdefinitions.Q2R 0)) as [Hlt|];
      [|done].
    by apply RIneq.Rlt_irrefl in Hlt.
  - intros x. destruct (RIneq.Rle_dec x (Rdefinitions.Q2R 0)) as [Hle|]; [|done].
    intros _. destruct (RIneq.Rlt_dec (Rdefinitions.Q2R 0) x) as [Hlt|]; [|done].
    destruct (RIneq.Rlt_not_le _ _ Hlt Hle).
Qed.

#[export] Instance real_exact : ExactSemiring Rdefinitions.R.
Proof.
  split; simpl; rewrite ?RMicromega.Q2R_0, ?RMicromega.Q2R_1.
  - apply Raxioms.Rplus_comm.
  - intros a b c. symmetry. apply Raxioms.Rplus_assoc.
  - apply Raxioms.Rplus_0_l.
  - apply Raxioms.Rmult_comm.
  - apply Raxioms.Rmult_1_l.
  - apply RIneq.Rmult_0_l.
  - apply RIneq.Rmult_plus_distr_r.
  - match goal with
    | |- context [RIneq.Rlt_dec ?a ?b] => destruct (RIneq.Rlt_dec a b) as [|Hn]
    end; [done|].
    destruct Hn. apply RIneq.Rlt_0_1.
Qed.

End Laws.

(** ** The mock phase keeps the contracts *)

Module HyperMockFacts.
Import PyState Hyper HyperFacts HyperMocks.

Lemma holds_no_reference_spec (o : obj) (l : nat) :
  holds_no_reference o = true → ¬ points_to o l.
Proof.
  destruct o as [attrs|lst d|z]; simpl; intros Hno Hpt.
  - apply bool_decide_eq_true in Hno as ->. by destruct Hpt.
  - apply andb_true_iff in Hno as [Hl Hd].
    apply bool_decide_eq_true in Hl as ->. apply bool_decide_eq_true in Hd as ->.
    destruct Hpt as [Hin|[k Hk]]; [by apply elem_of_nil in Hin|done].
  - done.
Qed.

Lemma reach_leaf (h : gmap nat obj) (c l : nat) (o : obj) :
  h !! c = Some o → holds_no_reference o = true → reach h c l → l = c.
Proof.
  intros Hc Hno Hreach. inversion Hreach as [|? o' l1 ? Ho Hpt _]; subst; [done|].
  rewrite Hc in Ho. injection Ho as <-.
  by destruct (holds_no_reference_spec o l1 Hno).
Qed.

Lemma reach_alloc_leaf (h : gmap nat obj) (f x l : nat) (o : obj) :
  h !! f = None → holds_no_reference o = true →
  reach (<[f := o]> h) x l → reach h x l ∨ l = f.
Proof.
  intros Hf Hno Hreach. induction Hreach as [x|x o' y l Ho Hpt _ IH].
  - left. constructor.
  - destruct (decide (x = f)) as [->|Hne].
    + rewrite lookup_insert_eq in Ho. injection Ho as <-.
      by destruct (holds_no_reference_spec o y Hno).
    + rewrite lookup_insert_ne in Ho by done.
      destruct IH as [IH|IH]; [|by right]. left. by eapply reach_step.
Qed.

Lemma mock_run_respects (keep : gset nat) : respects keep mock_run.
Proof.
  intros data c h Hdom Hiso. unfold mock_run, alloc. simpl.
  assert (h !! fresh (dom h) = None) as Hfresh
    by (apply not_elem_of_dom, is_fresh).
  assert (fresh (dom h) ∉ keep) as Hnot.
  { intros Hin. apply Hdom in Hin. by apply is_fresh in Hin. }
  split; [|split].
  - intros l Hl. rewrite lookup_insert_ne; [done|]. by intros <-.
  - intros l Hreach.
    apply reach_alloc_leaf in Hreach as [Hreach| ->]; [by apply Hiso|done..].
  - intros r [= <-] l Hreach.
    apply reach_leaf with (o := Result ∅) in Hreach as ->;
      [done|by rewrite lookup_insert_eq|done].
Qed.

End HyperMockFacts.

(** ** When the chi-squared term raises, and what it adds up *)

Module FittingShapeFacts.
Import NpFacts Broadcast.
Section FittingShapeFacts.
Context {F : Type} `{Float64 F}.

(** A binary ufunc on 1-D arrays returns an array of the broadcast length
    when the shapes can be broadcast, and raises [ValueError] when not. *)
Lemma broadcast2_outcome (f : F → F → F) (a b : list F) :
  match Np.broadcast2 f a b with
  | Ok c => broadcastable (length a) (length b) = true ∧
            length c = broadcast_length (length a) (length b)
  | Raise e => broadcastable (length a) (length b) = false ∧ e = ValueError
  end.
Proof.
  unfold Np.broadcast2, broadcastable, broadcast_length.
  destruct (Nat.eqb (length a) (length b)) eqn:Heq.
  - apply Nat.eqb_eq in Heq. split; [done|].
    rewrite length_zip_with, <- Heq. destruct (Nat.eqb (length a) 1); lia.
  - destruct a as [|x [|x' a]], b as [|y [|y' b]]; simpl in *;
      try done; by rewrite ?length_map.
Qed.

(** X1: [compute_chi_sq_term] raises nothing but [ValueError], and raises it
    exactly when the shapes of its arguments cannot be broadcast: when they
    can, it returns a number, also for arrays of different lengths. *)
Theorem compute_chi_sq_term_raises (image noise model_image : list F) :
  match Fitting.compute_chi_sq_term image noise model_image with
  | Ok _ => shapes_fit (length image) (length noise) (length model_image) = true
  | Raise e =>
      shapes_fit (length image) (length noise) (length model_image) = false ∧
      e = ValueError
  end.
Proof.
  unfold Fitting.compute_chi_sq_term, Np.add, Np.true_divide, shapes_fit.
  unfold Np.view_float, Np.negative.
  pose proof (broadcast2_outcome fadd image (map fneg model_image)) as Hadd.
  rewrite length_map in Hadd.
  destruct (Np.broadcast2 fadd image (map fneg model_image)) as [residuals|e];
    cbn [mbind result_bind].
  - destruct Hadd as [-> Hlen]. simpl.
    pose proof (broadcast2_outcome fdiv residuals noise) as Hdiv.
    rewrite Hlen in Hdiv.
    destruct (Np.broadcast2 fdiv residuals noise) as [scaled|e];
      cbn [mbind result_bind mret result_ret]; [by destruct Hdiv|done].
  - destruct Hadd as [-> ->]. done.
Qed.

Lemma compute_chi_sq_term_same_length (image noise model_image : list F) :
  length noise = length image →
  length model_image = length image →
  Fitting.compute_chi_sq_term image noise model_image
  = Ok (Np.sum (map fsqr (zip_with fdiv (zip_with fadd image (map fneg model_image))
                            noise))).
Proof.
  intros Hn Hm. unfold Fitting.compute_chi_sq_term, Np.add, Np.true_divide.
  unfold Np.view_float, Np.negative, Np.power2.
  rewrite broadcast2_same_length by (by rewrite length_map).
  cbn [mbind result_bind].
  rewrite broadcast2_same_length
    by (rewrite length_zip_with_same by (by rewrite length_map); done).
  done.
Qed.

Section Exact.
Context (Hexact : ExactSemiring F).

Lemma sum_app (a b : list F) : Np.sum (a ++ b) = fadd (Np.sum a) (Np.sum b).
Proof.
  induction b as [|x b IH] using rev_ind.
  - rewrite app_nil_r. unfold Np.sum at 3. simpl.
    by rewrite fadd_comm, fadd_0_l.
  - by rewrite app_assoc, !sum_snoc, IH, fadd_assoc.
Qed.

(** X4: in exact arithmetic the pixels contribute independently: the
    chi-squared term of two images laid end to end is the sum of their
    chi-squared terms. *)
Theorem compute_chi_sq_term_app (image1 noise1 model1 image2 noise2 model2 : list F) :
  length noise1 = length image1 → length model1 = length image1 →
  length noise2 = length image2 → length model2 = length image2 →
  ∃ chi_sq1 chi_sq2,
    Fitting.compute_chi_sq_term image1 noise1 model1 = Ok chi_sq1 ∧
    Fitting.compute_chi_sq_term image2 noise2 model2 = Ok chi_sq2 ∧
    Fitting.compute_chi_sq_term (image1 ++ image2) (noise1 ++ noise2)
      (model1 ++ model2) = Ok (fadd chi_sq1 chi_sq2).
Proof.
  intros Hn1 Hm1 Hn2 Hm2.
  rewrite !compute_chi_sq_term_same_length by (rewrite ?length_app; lia).
  eexists _, _. split; [done|]. split; [done|]. f_equal.
  rewrite map_app.
  rewrite (zip_with_app fadd) by (by rewrite length_map).
  rewrite (zip_with_app fdiv)
    by (rewrite length_zip_with_same by (by rewrite length_map); done).
  by rewrite map_app, sum_app.
Qed.

End Exact.
End FittingShapeFacts.
End FittingShapeFacts.

(** ** The chi-squared term in binary64 *)

Module FloatFacts.
Import FloatClass.

Lemma binary_round_aux_sign (sx : bool) (mx ex : Z) (lx : location) :
  match binary_round_aux prec emax sx mx ex lx with
  | S754_nan => True
  | S754_zero s | S754_infinity s | S754_finite s _ _ => s = sx
  end.
Proof.
  unfold binary_round_aux.
  destruct (shr_fexp prec emax mx ex lx) as [mrs' e'].
  destruct (shr_fexp prec emax _ e' loc_Exact) as [mrs'' e''].
  destruct (shr_m mrs''); [done| |done].
  by destruct (Z.leb e'' (emax - prec)).
Qed.

Lemma SFmul_self_unsigned (x : spec_float) : unsigned_or_nan (SF64mul x x).
Proof.
  destruct x as [s|s| |s m e]; simpl; try done; try by destruct s.
  unfold SF64mul, SFmul.
  pose proof (binary_round_aux_sign (xorb s s) (Z.pos (m * m)) (e + e) loc_Exact)
    as Hsign.
  destruct (binary_round_aux prec emax (xorb s s) _ _ _); simpl; try done;
    by destruct s.
Qed.

Lemma SFadd_unsigned (x y : spec_float) :
  unsigned_or_nan x → unsigned_or_nan y → unsigned_or_nan (SF64add x y).
Proof.
  destruct x as [sx|sx| |sx mx ex], y as [sy|sy| |sy my ey]; simpl;
    try done; try (by intros -> ->).
  intros -> ->. unfold SF64add, SFadd. cbn [cond_Zopp].
  set (a := fst (shl_align mx ex _)). set (b := fst (shl_align my ey _)).
  change (Z.pos a + Z.pos b)%Z with (Z.pos (a + b)).
  unfold binary_normalize, binary_round.
  destruct (shl_align (a + b) _ _) as [mz ez].
  exact (binary_round_aux_sign false (Z.pos mz) ez loc_Exact).
Qed.

Lemma sum_squares_unsigned (scaled : list float) (acc : float) :
  unsigned_or_nan (Prim2SF acc) →
  unsigned_or_nan (Prim2SF (fold_left PrimFloat.add
                              (map (λ x, PrimFloat.mul x x) scaled) acc)).
Proof.
  revert acc. induction scaled as [|x scaled IH]; intros acc Hacc; simpl; [done|].
  apply IH. rewrite add_spec. apply SFadd_unsigned; [done|].
  rewrite mul_spec. apply SFmul_self_unsigned.
Qed.

(** X2: in binary64, whatever the inputs and however the operations round,
    the chi-squared term is not negative: the test [chi_sq < 0] is false
    (the term is zero, positive, infinite or not a number). *)
Theorem compute_chi_sq_term_not_negative (image noise model_image : list float)
    (chi_sq : float) :
  Fitting.compute_chi_sq_term image noise model_image = Ok chi_sq →
  PrimFloat.ltb chi_sq 0 = false.
Proof.
  unfold Fitting.compute_chi_sq_term.
  destruct (Np.add _ _) as [residuals|]; cbn [mbind result_bind]; [|done].
  destruct (Np.true_divide _ _) as [scaled|];
    cbn [mbind result_bind mret result_ret]; [|done].
  intros [= <-]. unfold Np.sum, Np.power2. cbn [fadd fsqr binary64 lit].
  pose proof (sum_squares_unsigned scaled (float_lit 0)) as Hsum.
  rewrite ltb_spec. change (Prim2SF 0) with (S754_zero false).
  specialize (Hsum ltac:(done)).
  destruct (Prim2SF _) as [s|s| |s m e]; simpl in Hsum; subst; done.
Qed.

(** *** A perfect fit *)

Lemma SFadd_opp_finite (x : spec_float) :
  match x with S754_zero _ | S754_finite _ _ _ => True | _ => False end →
  SF64add x (SFopp x) = S754_zero false.
Proof.
  destruct x as [s|s| |s m e]; simpl; try done; intros _.
  - by destruct s.
  - unfold SF64add, SFadd.
    generalize (fst (shl_align m e (Z.min e e))). intros p.
    destruct s; simpl; by rewrite ?Z.add_opp_diag_l, ?Z.add_opp_diag_r.
Qed.

(** The square of the residual of a pixel whose model value is its data
    value is [+0.0]. *)
Lemma perfect_pixel (x n : float) :
  isfinite x = true → nonzero_number n = true →
  PrimFloat.mul (PrimFloat.div (PrimFloat.add x (PrimFloat.opp x)) n)
                (PrimFloat.div (PrimFloat.add x (PrimFloat.opp x)) n) = 0%float.
Proof.
  unfold isfinite, nonzero_number. intros Hx Hn. apply Prim2SF_inj.
  rewrite mul_spec, div_spec, add_spec, opp_spec.
  rewrite SFadd_opp_finite by (by destruct (Prim2SF x)).
  by destruct (Prim2SF n) as [s|s| |s m e]; try done; destruct s.
Qed.

Lemma sum_zeros (l : list float) :
  Forall (λ x, x = 0%float) l → fold_left PrimFloat.add l 0%float = 0%float.
Proof. induction 1 as [|x l -> _ IH]; [done|]. simpl. exact IH. Qed.

(** X3: in binary64, a model image equal to the data, pixel by pixel, has the
    chi-squared term [0.0] exactly, provided the data are finite and the
    noise of no pixel is zero or not a number. *)
Theorem compute_chi_sq_term_perfect_fit (image noise : list float) :
  length noise = length image →
  Forall (λ x, isfinite x = true) image →
  Forall (λ n, nonzero_number n = true) noise →
  Fitting.compute_chi_sq_term image noise image = Ok 0%float.
Proof.
  intros Hlen Himage Hnoise.
  rewrite FittingShapeFacts.compute_chi_sq_term_same_length by done.
  f_equal. unfold Np.sum. cbn [fadd fsqr fdiv fneg binary64 lit].
  apply sum_zeros. revert noise Hlen Hnoise.
  induction Himage as [|x image Hx _ IH]; intros [|n noise] Hlen Hnoise;
    simpl in *; try done.
  apply Forall_cons in Hnoise as [Hn Hnoise].
  constructor; [by apply perfect_pixel|]. apply IH; [lia|done].
Qed.

End FloatFacts.

(** ** The fit with hyper-galaxies *)

Module FittingHyperFacts.
Import Loop LoopFacts NpFacts FittingHyper.
Section FittingHyperFacts.
Context {F : Type} `{Float64 F}.
Variable np_log : F → F.
Variable np_pi : F.

(** X5: [generate_contributions] pairs the hyper-galaxies, the galaxy
    images and the minimum values by position and stops at the shortest of
    the three lists: lists of different lengths raise nothing, their surplus
    entries are not used. *)
Theorem generate_contributions_by_position (model_image : list F)
    (galaxy_images : list (list F)) (hyper_galaxies : list (HyperGalaxy F))
    (minimum_values : list F) (contributions : list (list F)) :
  generate_contributions model_image galaxy_images hyper_galaxies minimum_values
  = Ok contributions →
  length contributions
  = Nat.min (length hyper_galaxies)
      (Nat.min (length galaxy_images) (length minimum_values)) ∧
  ∀ i contribution, contributions !! i = Some contribution →
    ∃ hyper galaxy_image minimum_value,
      hyper_galaxies !! i = Some hyper ∧ galaxy_images !! i = Some galaxy_image ∧
      minimum_values !! i = Some minimum_value ∧
      compute_contributions hyper model_image galaxy_image minimum_value
      = Ok contribution.
Proof.
  unfold generate_contributions.
  revert galaxy_images minimum_values contributions.
  induction hyper_galaxies as [|hyper hyper_galaxies IH];
    intros [|galaxy_image galaxy_images] [|minimum_value minimum_values]
           contributions; simpl;
    try (intros [= <-]; split; [done|]; by intros i c Hc).
  destruct (compute_contributions hyper model_image galaxy_image minimum_value)
    as [c0|] eqn:Hfirst; cbn [mbind result_bind]; [|done].
  destruct (map3 _ hyper_galaxies galaxy_images minimum_values) as [cs|] eqn:Hrest;
    cbn [mbind result_bind mret result_ret]; [|done].
  intros [= <-]. destruct (IH galaxy_images minimum_values cs Hrest) as [Hlen Hcells].
  split; [simpl; by rewrite Hlen|].
  intros [|i] c Hc; simpl in *.
  - injection Hc as <-. by exists hyper, galaxy_image, minimum_value.
  - by apply Hcells.
Qed.

(** The loop of the builtin [sum] over arrays of one length: every pixel
    of the total is the pixels of the arrays added up in order. *)
Lemma py_sum_loop (n : nat) (arrays : list (list F)) (s : list F) :
  length s = n → Forall (λ a, length a = n) arrays →
  ∃ t, for_each arrays (λ a total,
         match total with
         | Zero => Ok (Array (map (fadd (lit 0)) a))
         | Array s => s' ← Np.add s a; Ok (Array s')
         end) (Array s) = Ok (Array t) ∧
       length t = n ∧
       ∀ i, i < n →
         t !! i = Some (fold_left (λ acc a, fadd acc (Fitting.pixel a i)) arrays
                          (Fitting.pixel s i)).
Proof.
  intros Hs Harrays. revert s Hs.
  induction Harrays as [|a arrays Ha _ IH]; intros s Hs; simpl.
  - exists s. split; [done|]. split; [done|]. intros i Hi.
    destruct (lookup_lt_is_Some_2 s i) as [x Hx]; [lia|].
    unfold Fitting.pixel. by rewrite (nth_lookup_Some _ _ _ _ Hx).
  - assert (Np.add s a = Ok (zip_with fadd s a)) as ->
      by (apply broadcast2_same_length; lia).
    cbn [mbind result_bind].
    destruct (IH (zip_with fadd s a)) as (t & Hrun & Hlen & Hcells).
    { rewrite length_zip_with_same; lia. }
    exists t. split; [done|]. split; [done|]. intros i Hi.
    rewrite Hcells by done. by rewrite pixel_zip_with by lia.
Qed.

(** X6: the scaled noise, pixel by pixel, when every hyper-galaxy returns a
    scaled noise of the length of the noise: the noise of the pixel plus the
    scaled noises at that pixel, added up from zero in the order of the
    hyper-galaxies. *)
Theorem generate_scaled_noise_pixels (noise : list F) (contributions : list (list F))
    (hyper_galaxies : list (HyperGalaxy F)) (scaled_noises : list (list F)) :
  map2 (λ hyper contribution, compute_scaled_noise hyper noise contribution)
       hyper_galaxies contributions = Ok scaled_noises →
  Forall (λ s, length s = length noise) scaled_noises →
  generate_scaled_noise noise contributions hyper_galaxies
  = Ok (imap (scaled_noise_pixel scaled_noises) noise).
Proof.
  intros Hmap Hlen. unfold generate_scaled_noise. rewrite Hmap.
  cbn [mbind result_bind]. unfold py_sum.
  destruct Hlen as [|a arrays Ha Harrays]; simpl.
  - f_equal. apply list_eq. intros i.
    by rewrite list_lookup_fmap, list_lookup_imap.
  - destruct (py_sum_loop (length noise) arrays (map (fadd (lit 0)) a))
      as (t & Hrun & Ht & Hcells); [by rewrite length_map|done|].
    rewrite Hrun. cbn [mbind result_bind].
    assert (Np.add noise t = Ok (zip_with fadd noise t)) as ->
      by (by apply broadcast2_same_length).
    f_equal.
    apply list_eq. intros i. rewrite lookup_zip_with, list_lookup_imap.
    destruct (noise !! i) as [x|] eqn:Hx; simpl; [|done].
    assert (i < length noise) as Hi by (by eapply lookup_lt_Some).
    rewrite Hcells by done. simpl. unfold scaled_noise_pixel. simpl.
    by rewrite pixel_map by lia.
Qed.

Lemma map3_nil {A B C D : Type} (f : A → B → C → result D)
    (xs : list A) (ys : list B) (zs : list C) :
  xs = [] ∨ ys = [] ∨ zs = [] → map3 f xs ys zs = Ok [].
Proof.
  intros Hnil. destruct xs, ys, zs; simpl; try done.
  by destruct Hnil as [?|[?|?]].
Qed.

(** X7: when there is no hyper-galaxy, or no galaxy image, or no minimum value,
    the fit with hyper-galaxies is the fit with profiles: the noise is not
    scaled (in arithmetic where adding zero changes nothing). *)
Theorem fit_without_hyper_galaxies (Hzero : AddZero F) {Mapping M : Type}
    (image background_noise : list F)
    (kernel_convolver : FittingHeap.KernelConvolver F)
    (tracer : FittingHeap.Tracer F Mapping M) (mapping : Mapping)
    (model_image : list F) (galaxy_images : list (list F))
    (minimum_values : list F) (hyper_galaxies : list (HyperGalaxy F)) :
  hyper_galaxies = [] ∨ galaxy_images = [] ∨ minimum_values = [] →
  fit_data_with_profiles_hyper_galaxies np_log np_pi image background_noise
    kernel_convolver tracer mapping model_image galaxy_images minimum_values
    hyper_galaxies
  = FittingHeap.fit_data_with_profiles_value np_log np_pi image background_noise
      kernel_convolver tracer mapping.
Proof.
  intros Hempty.
  unfold fit_data_with_profiles_hyper_galaxies, generate_contributions.
  rewrite map3_nil by done. cbn [mbind result_bind].
  unfold generate_scaled_noise.
  assert (map2 (λ hyper contribution,
                  compute_scaled_noise hyper background_noise contribution)
               hyper_galaxies [] = Ok []) as -> by (by destruct hyper_galaxies).
  cbn [mbind result_bind py_sum for_each].
  assert (map (λ x, fadd x (lit 0)) background_noise = background_noise) as ->.
  { rewrite <- (map_id background_noise) at 2. apply map_ext.
    intros x. apply fadd_zero_r. }
  unfold generate_blurred_light_profile_image,
    FittingHeap.fit_data_with_profiles_value.
  destruct (FittingHeap.generate_image_of_galaxy_light_profiles tracer mapping);
    cbn [mbind result_bind]; [|done].
  by destruct (FittingHeap.generate_blurring_image_of_galaxy_light_profiles tracer).
Qed.

End FittingHyperFacts.
End FittingHyperFacts.

(** ** More on the blurred mapping matrix *)

Module ConvolutionMoreFacts.
Import Loop Array2 Convolution Linear LoopFacts Array2Facts ConvolutionFacts.
Section ConvolutionMoreFacts.
Context {F : Type} `{Float64 F}.

Lemma get_entry (b : ndarray2 F) (i j : nat) :
  get b i j = of_option IndexError (entry b i j).
Proof.
  unfold get, entry, item. by destruct (rows b !! i) as [row|].
Qed.

(** Outside its rows an array has no entry. *)
Lemma holds_entry_outside (n m : nat) (b : ndarray2 F) (g : nat → nat → F)
    (v p : nat) :
  holds n m b g → n ≤ v → entry b v p = None.
Proof.
  intros (Hn & _ & [Hlen _] & _) Hv. unfold entry.
  by rewrite (lookup_ge_None_2 (rows b)) by lia.
Qed.

Lemma wf_get (mm : ndarray2 F) (i j : nat) :
  wf mm → i < shape0 mm → j < shape1 mm →
  get mm i j = Ok (nth j (nth i (rows mm) []) (lit 0)).
Proof.
  intros Hwf Hi Hj.
  by destruct (holds_get _ _ _ _ i j (wf_holds mm Hwf) Hi Hj) as [-> _].
Qed.

(** A loop whose iterations leave the state as it is returns the state. *)
Lemma for_each_unchanged {A S : Type} (l : list A) (body : A → S → result S) (s : S) :
  (∀ a, a ∈ l → body a s = Ok s) → for_each l body s = Ok s.
Proof.
  induction l as [|a l IH]; intros Hbody; simpl; [done|].
  rewrite Hbody by (by left). simpl. apply IH. intros a' Ha'. apply Hbody. by right.
Qed.

(** X8: a column of the blurred mapping matrix is computed from the same
    column of the mapping matrix and from nothing else: two mapping matrices
    over the same image pixels that agree on a column (wherever each holds
    it, and whatever their other columns are) have blurred matrices that
    agree on it. *)
Theorem convolve_mapping_matrix_column (fr : Frames F) (mm1 mm2 : ndarray2 F)
    (p1 p2 : nat) :
  wf mm1 → wf mm2 → shape0 mm1 = shape0 mm2 →
  p1 < shape1 mm1 → p2 < shape1 mm2 →
  frames_ok (shape0 mm1) fr = true →
  (∀ i, get mm1 i p1 = get mm2 i p2) →
  ∃ blurred1 blurred2,
    convolve_mapping_matrix fr mm1 = Ok blurred1 ∧
    convolve_mapping_matrix fr mm2 = Ok blurred2 ∧
    ∀ v, get blurred1 v p1 = get blurred2 v p2.
Proof.
  intros Hwf1 Hwf2 Hshape Hp1 Hp2 Hfr Hcol.
  destruct (convolve_matrix_jit_cells mm1 fr Hwf1 Hfr) as (b1 & Hb1 & Hcells1).
  destruct (convolve_matrix_jit_cells mm2 fr Hwf2) as (b2 & Hb2 & Hcells2);
    [by rewrite <- Hshape|].
  exists b1, b2. split; [done|]. split; [done|]. intros v.
  rewrite !get_entry. f_equal.
  destruct (decide (v < shape0 mm1)) as [Hv|Hv].
  - destruct Hcells1 as (_ & _ & _ & Hc1). destruct Hcells2 as (_ & _ & _ & Hc2).
    rewrite Hc1, Hc2 by lia. f_equal.
    unfold blurred_cell. cbn zeta. rewrite <- Hshape.
    apply fold_left_ext_in. intros i acc Hi. unfold range in Hi.
    apply elem_of_seq in Hi.
    specialize (Hcol i).
    rewrite (wf_get mm1), (wf_get mm2) in Hcol by (try done; lia).
    injection Hcol as Hcol. by rewrite Hcol.
  - rewrite (holds_entry_outside _ _ _ _ v p1 Hcells1) by lia.
    by rewrite (holds_entry_outside _ _ _ _ v p2 Hcells2) by lia.
Qed.

(** X9: a mapping matrix without a positive entry is blurred to the zero matrix
    of its shape, whatever the frames are: the frames of a pixel are read only
    for a positive entry, so frames that are missing or do not fit raise
    nothing here. *)
Theorem convolve_mapping_matrix_nowhere_positive (fr : Frames F) (mm : ndarray2 F) :
  wf mm → nowhere_positive mm →
  convolve_mapping_matrix fr mm = Ok (zeros (shape0 mm) (shape1 mm)).
Proof.
  intros Hwf Hnone. unfold convolve_mapping_matrix, convolve_matrix_jit. cbn zeta.
  apply for_each_unchanged. intros p Hp. unfold range in Hp. apply elem_of_seq in Hp.
  apply for_each_unchanged. intros i Hi. unfold range in Hi. apply elem_of_seq in Hi.
  pose proof (wf_get mm i p Hwf ltac:(lia) ltac:(lia)) as Hget.
  rewrite Hget. cbn [mbind result_bind]. by rewrite (Hnone i p _ Hget).
Qed.

(** X11: the frames of an image pixel are read only where the pixel has a
    positive entry: two convolvers whose frames agree at every image pixel
    with a positive entry return the same blurred matrix (or raise the same
    exception), whatever their other frames are. *)
Theorem convolve_mapping_matrix_frames_read (fr1 fr2 : Frames F) (mm : ndarray2 F) :
  (∀ i j value, get mm i j = Ok value → fgt value (lit 0) = true →
     image_frame_indexes fr1 !! i = image_frame_indexes fr2 !! i ∧
     image_frame_kernels fr1 !! i = image_frame_kernels fr2 !! i ∧
     image_frame_lengths fr1 !! i = image_frame_lengths fr2 !! i) →
  convolve_mapping_matrix fr1 mm = convolve_mapping_matrix fr2 mm.
Proof.
  intros Hsame. unfold convolve_mapping_matrix, convolve_matrix_jit. cbn zeta.
  apply for_each_ext. intros p b. apply for_each_ext. intros i b'.
  destruct (get mm i p) as [value|] eqn:Hget; cbn [mbind result_bind]; [|done].
  destruct (fgt value (lit 0)) eqn:Hpos; [|done].
  destruct (Hsame i p value Hget Hpos) as (Hidx & Hker & Hlen).
  unfold item. by rewrite Hidx, Hker, Hlen.
Qed.

(** Two arrays of one shape that hold the same cells are equal. *)
Lemma holds_unique (n m : nat) (b b' : ndarray2 F) (g : nat → nat → F) :
  holds n m b g → holds n m b' g → b = b'.
Proof.
  intros (Hn & Hm & [Hlen Hrows] & Hcells) (Hn' & Hm' & [Hlen' Hrows'] & Hcells').
  destruct b as [n0 m0 rs], b' as [n1 m1 rs']. simpl in *.
  subst n0 m0 n1 m1.
  f_equal. apply list_eq. intros v.
  destruct (decide (v < n)) as [Hv|Hv].
  - destruct (lookup_lt_is_Some_2 rs v) as [row Hrow]; [lia|].
    destruct (lookup_lt_is_Some_2 rs' v) as [row' Hrow']; [lia|].
    rewrite Hrow, Hrow'. f_equal. apply list_eq. intros p.
    assert (length row = m) as Hl
      by (eapply (proj1 (Forall_forall _ _) Hrows); by eapply list_elem_of_lookup_2).
    assert (length row' = m) as Hl'
      by (eapply (proj1 (Forall_forall _ _) Hrows'); by eapply list_elem_of_lookup_2).
    destruct (decide (p < m)) as [Hp|Hp].
    + specialize (Hcells v p Hv Hp). specialize (Hcells' v p Hv Hp).
      unfold entry in *. simpl in *. rewrite Hrow in Hcells. rewrite Hrow' in Hcells'.
      simpl in *. by rewrite Hcells, Hcells'.
    + rewrite (lookup_ge_None_2 row) by lia. by rewrite (lookup_ge_None_2 row') by lia.
  - rewrite (lookup_ge_None_2 rs) by lia. by rewrite (lookup_ge_None_2 rs') by lia.
Qed.

Lemma column_pixel (mm : ndarray2 F) (p i : nat) :
  i < length (rows mm) →
  Fitting.pixel (column mm p) i = nth p (nth i (rows mm) []) (lit 0).
Proof.
  intros Hi. destruct (lookup_lt_is_Some_2 (rows mm) i) as [row Hrow]; [done|].
  unfold Fitting.pixel, column.
  rewrite (nth_lookup_Some _ _ _ row Hrow).
  apply nth_lookup_Some. by rewrite list_lookup_fmap, Hrow.
Qed.

Section Exact.
Context (Hexact : ExactSemiring F) (Hzero : ZeroTest F).

(** A cell of the blurred matrix of a mapping matrix without negative
    entries: the unit taps of the image pixels times their entries. *)
Lemma blurred_cell_big_sum (mm : ndarray2 F) (fr : Frames F) (v p : nat) :
  wf mm → non_negative mm → p < shape1 mm →
  blurred_cell mm fr v p
  = Fitting.big_sum (shape0 mm)
      (λ i, fmul (tap_sum (shape0 mm) fr (lit 1) i v (lit 0))
                 (nth p (nth i (rows mm) []) (lit 0))).
Proof.
  intros Hwf Hpos Hp. unfold blurred_cell, range. cbn zeta.
  rewrite <- fold_seq_big_sum. apply fold_left_ext_in.
  intros i acc Hi. apply elem_of_seq in Hi.
  pose proof (wf_get mm i p Hwf ltac:(lia) Hp) as Hget.
  destruct (Hpos i p _ Hget) as [Hgt|Heq0].
  - rewrite Hgt. by apply tap_sum_linear.
  - rewrite Heq0, fgt_zero.
    by rewrite (fmul_comm _ (lit 0)), fmul_0_l, (fadd_0_r Hexact).
Qed.

(** X10: in exact arithmetic, on a mapping matrix without negative entries, the
    blurred mapping matrix is the product of the blurred identity (the PSF
    as a matrix over the image pixels) with the mapping matrix. *)
Theorem convolve_mapping_matrix_is_product (fr : Frames F) (mm : ndarray2 F) :
  wf mm → non_negative mm → frames_ok (shape0 mm) fr = true →
  ∃ psf blurred,
    convolve_mapping_matrix fr (identity (shape0 mm)) = Ok psf ∧
    convolve_mapping_matrix fr mm = Ok blurred ∧
    matmul psf mm = Ok blurred.
Proof.
  intros Hwf Hpos Hfr. set (n := shape0 mm) in *. set (m := shape1 mm).
  destruct (convolve_matrix_jit_cells (identity n) fr (identity_wf n) Hfr)
    as (psf & Hpsf & Hn & Hm & [Hlen Hrows] & Hcells).
  destruct (convolve_matrix_jit_cells mm fr Hwf Hfr) as (b & Hb & Hholds).
  change (shape0 (identity n)) with n in *.
  change (shape1 (identity n)) with n in *.
  exists psf, b. split; [done|]. split; [done|].
  unfold matmul. rewrite Hm. fold n. rewrite Nat.eqb_refl. f_equal.
  apply (holds_unique n m _ _ (blurred_cell mm fr)); [|done].
  split; [done|]. split; [done|]. split.
  { split; simpl; [by rewrite length_map, Hlen, Hn|].
    apply Forall_forall. intros r Hr. apply list_elem_of_fmap in Hr as (row & -> & _).
    by rewrite length_map, length_seq. }
  intros v p Hv Hp. unfold entry. simpl. rewrite list_lookup_fmap.
  destruct (lookup_lt_is_Some_2 (rows psf) v) as [row Hrow]; [lia|].
  rewrite Hrow. simpl. rewrite list_lookup_fmap.
  rewrite (lookup_seq_lt 0 (shape1 mm) p) by done. simpl. f_equal.
  assert (length row = n) as Hrowlen.
  { rewrite <- Hm. eapply (proj1 (Forall_forall _ _) Hrows).
    by eapply list_elem_of_lookup_2. }
  assert (length (column mm p) = n) as Hcollen.
  { unfold column. rewrite length_map. by destruct Hwf. }
  rewrite NpFacts.sum_big_sum, blurred_cell_big_sum by done.
  rewrite NpFacts.length_zip_with_same by lia. rewrite Hrowlen. fold n.
  apply NpFacts.big_sum_ext. intros i Hi.
  rewrite NpFacts.pixel_zip_with by lia.
  rewrite column_pixel by (destruct Hwf as [-> _]; done).
  f_equal. specialize (Hcells v i Hv Hi). unfold entry in Hcells.
  rewrite Hrow in Hcells. simpl in Hcells.
  unfold Fitting.pixel. rewrite (nth_lookup_Some _ _ _ _ Hcells).
  by apply blurred_identity_cell.
Qed.

End Exact.
End ConvolutionMoreFacts.
End ConvolutionMoreFacts.

(** ** Attribute access on a hyper phase *)

Module HyperAttrFacts.
Import PyState HyperAttr.
Section HyperAttrFacts.
Variable object_defines : list string.

(** X12: a hyper phase shows the attributes of the phase it wraps: after
    [HyperPhase(phase, hyper_name)], the names [phase] and [hyper_name] give
    the two arguments, and every other name that neither [HyperPhase] nor
    [object] defines gives what the same access on the wrapped phase gives,
    the value or the exception. *)
Theorem hyper_phase_getattr_delegates (phase hyper_name : nat)
    (h : gmap nat pyobject) (depth : nat) :
  ∃ self h',
    HyperPhase phase hyper_name h = (Ok self, h') ∧
    getattr object_defines (S depth) h' self "phase" = Ok (InstanceAttr phase) ∧
    getattr object_defines (S depth) h' self "hyper_name"
    = Ok (InstanceAttr hyper_name) ∧
    ∀ name : string,
      name ≠ "phase"%string → name ≠ "hyper_name"%string →
      type_defines object_defines HyperPhaseCls name = false →
      getattr object_defines (S (S depth)) h' self name
      = getattr object_defines (S depth) h' phase name.
Proof.
  unfold HyperPhase, new_instance, init, setattr, py_bind, py_ret.
  set (self := fresh (dom h)).
  rewrite lookup_insert_eq. cbn [ob_type ob_dict].
  rewrite lookup_insert_eq. cbn [ob_type ob_dict].
  rewrite !insert_insert_eq.
  set (dict := <["hyper_name"%string := hyper_name]>
                 (<["phase"%string := phase]> (∅ : gmap string nat))).
  set (h' := <[self := {| ob_type := HyperPhaseCls; ob_dict := dict |}]> h).
  assert (h' !! self = Some {| ob_type := HyperPhaseCls; ob_dict := dict |})
    as Hself by apply lookup_insert_eq.
  assert (dict !! "phase"%string = Some phase) as Hphase.
  { unfold dict. rewrite lookup_insert_ne by done. apply lookup_insert_eq. }
  assert (dict !! "hyper_name"%string = Some hyper_name) as Hname
    by apply lookup_insert_eq.
  exists self, h'. split; [done|].
  split; [cbn [getattr]; by rewrite Hself; cbn [ob_dict]; rewrite Hphase|].
  split; [cbn [getattr]; by rewrite Hself; cbn [ob_dict]; rewrite Hname|].
  intros name Hne1 Hne2 Htype.
  assert (dict !! name = None) as Hnone.
  { unfold dict. rewrite !lookup_insert_ne by done. apply lookup_empty. }
  cbn [getattr]. rewrite Hself. cbn [ob_dict ob_type].
  by rewrite Hnone, Htype, Hphase.
Qed.

Lemma phase_not_defined :
  "phase"%string ∉ object_defines →
  type_defines object_defines HyperPhaseCls "phase" = false.
Proof.
  intros Hnot. unfold type_defines. by rewrite bool_decide_eq_false_2.
Qed.

(** Without [phase] in its [__dict__] a hyper phase cannot delegate:
    [__getattr__] asks for [self.phase], which calls [__getattr__] again. *)
Lemma getattr_phase_recurses (h : gmap nat pyobject) (self : nat) (ob : pyobject)
    (depth : nat) :
  "phase"%string ∉ object_defines →
  h !! self = Some ob → ob_type ob = HyperPhaseCls →
  ob_dict ob !! "phase"%string = None →
  getattr object_defines depth h self "phase" = Raise RecursionError.
Proof.
  intros Hnot Hself Htype Hdict. induction depth as [|depth IH]; [done|].
  cbn [getattr]. rewrite Hself, Hdict, Htype, (phase_not_defined Hnot).
  by rewrite IH.
Qed.

(** X13: on a hyper phase whose [__dict__] has no entry [phase] (an instance as
    [object.__new__] makes it, before [__init__] has run or a state has been
    restored), the access to a name the instance and its class do not have
    raises [RecursionError], not [AttributeError], whatever the recursion
    limit is. *)
Theorem getattr_without_phase (h : gmap nat pyobject) (self : nat) (ob : pyobject)
    (name : string) (depth : nat) :
  "phase"%string ∉ object_defines →
  h !! self = Some ob → ob_type ob = HyperPhaseCls →
  ob_dict ob !! "phase"%string = None →
  ob_dict ob !! name = None →
  type_defines object_defines HyperPhaseCls name = false →
  getattr object_defines depth h self name = Raise RecursionError.
Proof.
  intros Hnot Hself Htype Hphase Hname Hdefines.
  destruct depth as [|depth]; [done|].
  cbn [getattr]. rewrite Hself, Hname, Htype, Hdefines.
  by rewrite (getattr_phase_recurses h self ob depth).
Qed.

End HyperAttrFacts.
End HyperAttrFacts.

(** ** The deep copy succeeds *)

Module DeepcopyTotalFacts.
Import PyState Hyper HyperClosed DeepcopyFacts.

Lemma points_to_refs (o : obj) (y : nat) : points_to o y → y ∈ refs o.
Proof.
  destruct o as [attrs|lst d|z]; simpl; [| |done].
  - intros [k Hk]. apply list_elem_of_fmap. exists (k, y). split; [done|].
    by apply elem_of_map_to_list.
  - intros [Hin|[k Hk]]; apply elem_of_app; [by left|right].
    apply list_elem_of_fmap. exists (k, y). split; [done|].
    by apply elem_of_map_to_list.
Qed.

Lemma closed_refs (h : gmap nat obj) (x : nat) (o : obj) :
  closed h → h !! x = Some o → Forall (λ y, y ∈ dom h) (refs o).
Proof. intros Hclosed Hx. by apply (Hclosed x o). Qed.

(** The objects still to copy become fewer when the memo grows. *)
Lemma todo_mono (h0 : gmap nat obj) (memo memo' : gmap nat nat) :
  dom memo ⊆ dom memo' →
  size (dom h0 ∖ dom memo') ≤ size (dom h0 ∖ dom memo).
Proof.
  intros Hsub. apply subseteq_size. intros x Hx.
  apply elem_of_difference in Hx as [Hx Hnot]. apply elem_of_difference.
  split; [done|]. intros Hin. by apply Hnot, Hsub.
Qed.

Lemma todo_insert (h0 : gmap nat obj) (memo : gmap nat nat) (l c : nat) :
  l ∈ dom h0 → memo !! l = None →
  size (dom h0 ∖ dom (<[l := c]> memo)) < size (dom h0 ∖ dom memo).
Proof.
  intros Hl Hnone. apply subset_size. rewrite dom_insert_L.
  apply not_elem_of_dom in Hnone. split.
  - intros x Hx. apply elem_of_difference in Hx as [Hx Hnot].
    apply elem_of_difference. split; [done|]. intros Hin.
    by apply Hnot, elem_of_union_r.
  - intros Hsub. assert (l ∈ dom h0 ∖ dom memo) as Hin
      by (by apply elem_of_difference).
    apply Hsub, elem_of_difference in Hin as [_ Hnot].
    by apply Hnot, elem_of_union_l, elem_of_singleton.
Qed.

Section Total.
Variable h0 : gmap nat obj.
Hypothesis Hclosed : closed h0.

Lemma map_state_total (depth : nat) (ls : list nat)
    (st : gmap nat nat * gmap nat obj) :
  copies_at h0 depth →
  copy_inv h0 st → dom st.1 ⊆ dom h0 → Forall (λ l, l ∈ dom h0) ls →
  size (dom h0 ∖ dom st.1) < depth →
  ∃ cs st', map_state (deepcopy_memo depth) ls st = (Ok cs, st') ∧
            copy_inv h0 st' ∧ dom st.1 ⊆ dom st'.1 ∧ dom st'.1 ⊆ dom h0 ∧
            dom st.2 ⊆ dom st'.2 ∧ length cs = length ls.
Proof.
  intros Hstep Hinv Hmemo Hls. revert st Hinv Hmemo.
  induction Hls as [|l ls Hl _ IH]; intros st Hinv Hmemo Hsize; simpl.
  - by exists [], st.
  - destruct (Hstep l st Hinv Hmemo Hl Hsize) as (c & st1 & Hrun & Hgrow & Hin).
    destruct (deepcopy_memo_ok h0 depth l st Hinv) as (Hinv1 & Hdom1 & _).
    rewrite Hrun in Hinv1, Hdom1 |- *. simpl in Hinv1, Hdom1.
    destruct (IH st1 Hinv1 Hin) as (cs & st2 & Hrest & Hinv2 & Hgrow2 & Hin2 & Hdom2 & Hlen).
    { eapply Nat.le_lt_trans; [by apply todo_mono|done]. }
    rewrite Hrest. exists (c :: cs), st2. split; [done|]. split; [done|].
    split; [by etrans|]. split; [done|]. split; [by etrans|]. simpl. by rewrite Hlen.
Qed.

Lemma deepcopy_memo_total (depth : nat) : copies_at h0 depth.
Proof.
  induction depth as [|depth IH]; intros l [memo h] Hinv Hmemo Hl Hsize;
    simpl in *; [lia|].
  destruct (memo !! l) as [c0|] eqn:Hhit; simpl.
  { by exists c0, (memo, h). }
  set (c := fresh (dom h)).
  assert (c ∉ dom h) as Hfresh by apply is_fresh.
  pose proof Hinv as (Hsub & _). simpl in Hsub.
  assert (c ∉ dom h0) as Hc0.
  { intros Hin. apply Hfresh. by apply (subseteq_dom _ _ Hsub). }
  apply elem_of_dom in Hl as [o Ho].
  pose proof (closed_refs h0 l o Hclosed Ho) as Hrefs.
  rewrite (lookup_weaken _ _ _ _ Ho Hsub).
  assert (dom memo ⊆ dom (<[l := c]> memo)) as Hgrow0.
  { rewrite dom_insert_L. apply union_subseteq_r. }
  assert (dom (<[l := c]> memo) ⊆ dom h0) as Hmemo1.
  { rewrite dom_insert_L. apply union_least; [|done].
    apply singleton_subseteq_l, elem_of_dom. by exists o. }
  assert (size (dom h0 ∖ dom (<[l := c]> memo)) < depth) as Hsize1.
  { eapply Nat.lt_le_trans; [apply todo_insert; [|done]|lia].
    apply elem_of_dom. by exists o. }
  assert (∀ o', (∀ y, ¬ points_to o' y) →
            copy_inv h0 (<[l := c]> memo, <[c := o']> h)) as Hplace.
  { intros o' Hno. apply copy_inv_memo.
    - apply copy_inv_insert; [done..|]. intros y Hy. by destruct (Hno y).
    - split; [|done]. simpl. rewrite dom_insert_L.
      apply elem_of_union_l. by apply elem_of_singleton. }
  destruct o as [attrs|lst d|z]; simpl in Hrefs |- *.
  - assert (copy_inv h0 (<[l := c]> memo, <[c := Result ∅]> h)) as Hinv1.
    { apply Hplace. by intros y [k Hk]. }
    destruct (map_state_total depth (map_to_list attrs).*2 _ IH Hinv1 Hmemo1 Hrefs Hsize1)
      as (values & [memo2 h2] & -> & _ & Hgrow2 & Hin2 & _).
    simpl in *. eexists c, _. split; [done|]. simpl. split; [by etrans|done].
  - apply Forall_app in Hrefs as [Hlst Hd].
    assert (copy_inv h0 (<[l := c]> memo, <[c := Collection [] ∅]> h)) as Hinv1.
    { apply Hplace. intros y [Hy|[k Hk]]; [by apply elem_of_nil in Hy|done]. }
    destruct (map_state_total depth lst _ IH Hinv1 Hmemo1 Hlst Hsize1)
      as (lst' & [memo2 h2] & -> & Hinv2 & Hgrow2 & Hin2 & _).
    simpl in *.
    destruct (map_state_total depth (map_to_list d).*2 (memo2, h2) IH Hinv2 Hin2 Hd)
      as (values & [memo3 h3] & -> & _ & Hgrow3 & Hin3 & _).
    { simpl. eapply Nat.le_lt_trans; [by apply todo_mono|done]. }
    simpl in *. eexists c, _. split; [done|]. simpl.
    split; [|done]. etrans; [exact Hgrow0|]. by etrans.
  - eexists c, _. split; [done|]. simpl. by split.
Qed.

End Total.

(** The deep copy of a results collection in a closed heap: a new
    collection with as many results as the original, under the same
    names. *)
Lemma deepcopy_collection (h : gmap nat obj) (results : nat)
    (result_list : list nat) (result_dict : gmap string nat) :
  closed h → h !! results = Some (Collection result_list result_dict) →
  ∃ copy h' copies copied_dict,
    deepcopy results h = (Ok copy, h') ∧ (copy ∉ dom h) ∧ (h ⊆ h') ∧
    h' !! copy = Some (Collection copies copied_dict) ∧
    length copies = length result_list ∧ dom copied_dict = dom result_dict.
Proof.
  intros Hclosed Hresults. unfold deepcopy. cbn [deepcopy_memo fst snd].
  rewrite lookup_empty, Hresults.
  set (c := fresh (dom h)).
  assert (c ∉ dom h) as Hfresh by apply is_fresh.
  pose proof (closed_refs h results _ Hclosed Hresults) as Hrefs. simpl in Hrefs.
  apply Forall_app in Hrefs as [Hlst Hd].
  assert (copy_inv h (<[results := c]> ∅, <[c := Collection [] ∅]> h)) as Hinv1.
  { apply copy_inv_memo.
    - apply copy_inv_insert; [apply copy_inv_init|done|].
      intros y [Hy|[k Hk]]; [by apply elem_of_nil in Hy|done].
    - split; [|done]. simpl. rewrite dom_insert_L.
      apply elem_of_union_l. by apply elem_of_singleton. }
  assert (dom (<[results := c]> (∅ : gmap nat nat)) ⊆ dom h) as Hmemo1.
  { rewrite dom_insert_L, dom_empty_L, union_empty_r_L.
    apply singleton_subseteq_l, elem_of_dom. by eexists. }
  assert (size (dom h ∖ dom (<[results := c]> (∅ : gmap nat nat))) < size h)
    as Hsize1.
  { eapply Nat.lt_le_trans; [apply todo_insert; [|done]|].
    - apply elem_of_dom. by eexists.
    - rewrite dom_empty_L, difference_empty_L. by rewrite size_dom. }
  destruct (map_state_total h (size h) result_list _
              (deepcopy_memo_total h Hclosed (size h)) Hinv1 Hmemo1 Hlst Hsize1)
    as (lst' & [memo2 h2] & -> & Hinv2 & Hgrow2 & Hin2 & _ & Hlen2).
  destruct (map_state_total h (size h) (map_to_list result_dict).*2 (memo2, h2)
              (deepcopy_memo_total h Hclosed (size h)) Hinv2 Hin2 Hd)
    as (values & [memo3 h3] & -> & Hinv3 & _ & _ & _ & Hlen3).
  { simpl. eapply Nat.le_lt_trans; [by apply todo_mono|done]. }
  simpl. eexists c, _, lst', _. split; [done|]. split; [done|].
  split.
  { apply insert_subseteq_r; [by apply not_elem_of_dom|]. apply Hinv3. }
  split; [by rewrite lookup_insert_eq|]. split; [done|].
  rewrite dom_list_to_map_L, fst_zip by (rewrite Hlen3, !length_fmap; lia).
  apply set_eq. intros k. rewrite elem_of_list_to_set, elem_of_dom.
  rewrite list_elem_of_fmap. split.
  - intros ([k' y] & -> & Hin). apply elem_of_map_to_list in Hin. by exists y.
  - intros [y Hy]. exists (k, y). split; [done|]. by apply elem_of_map_to_list.
Qed.

End DeepcopyTotalFacts.

(** ** A run of a hyper phase returns *)

Module HyperRunFacts.
Import PyState Hyper HyperClosed DeepcopyFacts DeepcopyTotalFacts.

(** The collection the wrapped phase is handed exists: the copy, or the
    new collection, is made without an exception. *)
Lemma working_copy (results : option nat) (h : gmap nat obj) :
  closed h → (∀ r, results = Some r → is_collection h r) →
  ∃ c h1,
    match results with
    | Some r => deepcopy r
    | None => new_results_collection
    end h = (Ok c, h1) ∧
    is_collection h1 c ∧ ∀ x, is_result h x → is_result h1 x.
Proof.
  intros Hclosed Hresults. destruct results as [r|].
  - destruct (Hresults r eq_refl) as (lst & d & Hr).
    destruct (deepcopy_collection h r lst d Hclosed Hr)
      as (c & h1 & lst' & d' & Hrun & _ & Hsub & Hc & _).
    exists c, h1. split; [done|]. split; [by exists lst', d'|].
    intros x [attrs Hx]. exists attrs. by eapply lookup_weaken.
  - unfold new_results_collection, alloc. eexists _, _. split; [done|].
    split; [eexists _, _; by rewrite lookup_insert_eq|].
    intros x [attrs Hx]. exists attrs. rewrite lookup_insert_ne; [done|].
    intros <-. pose proof (is_fresh (dom h)) as Hfresh.
    apply Hfresh, elem_of_dom. by eexists.
Qed.

(** What a run does once the copy is made and the wrapped phase has
    returned. *)
Lemma run_after_phase (self : HyperPhase) (data c r : nat) (h2 : gmap nat obj) :
  is_collection h2 c → is_result h2 r →
  ∃ lst d,
    h2 !! c = Some (Collection lst d) ∧
    py_bind (add c (phase_name (phase self)) r) (λ _,
      py_bind (run_hyper self data c) (λ hyper_result,
      py_bind (setattr r (hyper_name self) hyper_result) (λ _, py_ret r))) h2
    = py_bind (run_hyper self data c) (λ hyper_result,
        py_bind (setattr r (hyper_name self) hyper_result) (λ _, py_ret r))
        (<[c := Collection (lst ++ [r]) (<[phase_name (phase self) := r]> d)]> h2) ∧
    is_result
      (<[c := Collection (lst ++ [r]) (<[phase_name (phase self) := r]> d)]> h2) r ∧
    is_collection
      (<[c := Collection (lst ++ [r]) (<[phase_name (phase self) := r]> d)]> h2) c.
Proof.
  intros (lst & d & Hc) [attrs Hr]. exists lst, d. split; [done|].
  split; [|split].
  - unfold py_bind at 1, add. by rewrite Hc.
  - exists attrs. rewrite lookup_insert_ne; [done|]. intros <-. congruence.
  - eexists _, _. by rewrite lookup_insert_eq.
Qed.


(** X16: a hyper phase that does not override [run_hyper] cannot complete a run:
    once the copy is made and the wrapped phase has returned, [run] raises
    [NotImplementedError]. *)
Theorem run_not_implemented (self : HyperPhase) (data : nat) (results : option nat)
    (h : gmap nat obj) :
  closed h → (∀ r, results = Some r → is_collection h r) →
  returns_result (phase_run (phase self)) →
  run_hyper self = abstract_run_hyper →
  (run self data results h).1 = Raise NotImplementedError.
Proof.
  intros Hclosed Hresults Hphase Habstract. unfold run.
  match goal with |- context [py_bind ?m _] => set (m0 := m) end.
  destruct (working_copy results h Hclosed Hresults) as (c & h1 & Hcopy & Hc1 & _).
  change (match results with
          | Some r => deepcopy r
          | None => new_results_collection
          end) with m0 in Hcopy.
  unfold py_bind at 1. rewrite Hcopy.
  destruct (Hphase data c h1 Hc1) as (r & h2 & Hrun & Hc2 & Hr2 & _).
  unfold py_bind at 1. rewrite Hrun.
  destruct (run_after_phase self data c r h2 Hc2 Hr2) as (lst & d & _ & -> & _).
  unfold py_bind at 1. by rewrite Habstract.
Qed.


End HyperRunFacts.

(** ** The statements at concrete inputs *)

Module Witnesses.
Import Fixtures Laws.
Import Array2 Convolution.

(** Equations between computed rationals, up to the proofs of canonicity. *)
Ltac qc_eq :=
  vm_compute;
  repeat first [reflexivity | apply Qc_is_canon; reflexivity | f_equal].

(** *** The chi-squared term *)

(** In binary64: ((1-0)/1)² + ((2-1)/0.5)² = 5. *)
Example chi_sq_image2 :
  Fitting.compute_chi_sq_term image2 noise2 model2 = Ok 5%float.
Proof. reflexivity. Qed.

(** An image of two pixels against a model of three cannot be broadcast. *)
Example chi_sq_shape_mismatch :
  Fitting.compute_chi_sq_term image2 noise2 [0.0; 1.0; 1.0]%float = Raise ValueError.
Proof. reflexivity. Qed.

(** On the heap the term allocates four arrays (the negated model, the
    residuals, their quotient by the noise, its squares) and leaves its
    three arguments as they are. *)
Example chi_sq_on_heap :
  let run := FittingHeap.compute_chi_sq_term 0 1 2 float_heap in
  run.1 = Ok 5%float ∧ size run.2 = 7 ∧
  run.2 !! 0 = Some image2 ∧ run.2 !! 1 = Some noise2 ∧ run.2 !! 2 = Some model2.
Proof. vm_compute. by repeat split. Qed.


(** *** Likelihood and evidence, over the reals *)


Lemma pix_fit1_log_determinant (x : Rdefinitions.R) :
  Rdefinitions.Rlt (Rdefinitions.Q2R 0) x →
  Fitting.log_determinant_of_matrix_cholesky pix_fit1 (mk_ndarray2 1 1 [[x]])
  = Ok (Rdefinitions.Rmult (Rdefinitions.Q2R 2) (Rpower.ln (R_sqrt.sqrt x))).
Proof.
  intros Hx. simpl. by destruct (RIneq.Rlt_dec (Rdefinitions.Q2R 0) x).
Qed.

Lemma Q2R_pos (a : Q) : (0 < a)%Q → Rdefinitions.Rlt (Rdefinitions.Q2R 0) (Rdefinitions.Q2R a).
Proof. apply Qreals.Qlt_Rlt. Qed.


(** *** Blurring a mapping matrix *)

(** The blurred 3×2 matrix: the negative entry of the second column adds
    nothing. *)
Example blurred_mapping3x2 :
  convolve_mapping_matrix frames3 mapping3x2
  = Ok (mk_ndarray2 3 2 [[q 1 2; q 1 2]; [q 1 4; q 1 1]; [q 0 1; q 1 2]]).
Proof. qc_eq. Qed.

(** In binary64, with a NaN, a zero and a negative zero among the entries:
    only the entries 1.0 and 2.0 are blurred. *)
Example blurred_mapping3x2_float :
  convolve_mapping_matrix frames3_float mapping3x2_float
  = Ok (mk_ndarray2 3 2 [[0.5; 0.5]; [0.25; 1.0]; [0.0; 0.5]]%float).
Proof. reflexivity. Qed.

Lemma convolve_mapping_matrix_shape_witness :
  wf mapping3x2_float ∧ frames_ok (shape0 mapping3x2_float) frames3_float = true ∧
  ∃ b, convolve_mapping_matrix frames3_float mapping3x2_float = Ok b ∧
       shape0 b = shape0 mapping3x2_float ∧ shape1 b = shape1 mapping3x2_float ∧
       wf b.
Proof.
  assert (wf mapping3x2_float) as Hwf by (split; [reflexivity|repeat constructor]).
  split; [exact Hwf|]. split; [reflexivity|].
  apply (proj2 (ConvolutionFacts.convolve_mapping_matrix_shape
                  mapping3x2_float frames3_float));
    [exact Hwf|reflexivity].
Defined.

Lemma convolve_mapping_matrix_ignores_non_positive_witness :
  ZeroTest float ∧
  convolve_mapping_matrix frames3_float (clip_non_positive mapping3x2_float)
  = convolve_mapping_matrix frames3_float mapping3x2_float.
Proof.
  split; [exact float_zero_test|].
  apply (ConvolutionFacts.convolve_mapping_matrix_ignores_non_positive float_zero_test).
Defined.

(** Pixel by pixel: 1/2 + 2/4 = 1, 1/4 + 1 - 3/4 = 1/2, 2/4 - 3/2 = -1. *)
Example convolve_image3 : convolve frames3 image3 = Ok [q 1 1; q 1 2; q (-1) 1].
Proof. qc_eq. Qed.


(** *** The scenario of the integration test *)

(** A model image equal to the data has chi-squared zero. *)
Example chi_sq_perfect_fit :
  Fitting.compute_chi_sq_term ones9 ones9 ones9 = Ok (q 0 1).
Proof. qc_eq. Qed.

(** The rows of the regularization matrix sum to zero: the matrix maps the
    constant vector to zero, so it is singular and its determinant is 0. *)
Example reg_matrix_singular :
  dot reg_matrix ones9 = Ok (replicate 9 (q 0 1)).
Proof. qc_eq. Qed.

(** *** Fits on the heap *)

Import PyState FittingHeap.


(** *** A hyper phase around a mock phase *)

Import Hyper HyperMocks HyperMockFacts.

(** Run with the caller's collection: the copies of the collection, the
    earlier result and the data are objects 3, 4 and 5, the new result is
    object 6 and the hyper result object 7.  The phase result was added to
    the copy; the caller's collection and its result are as before. *)
Example run_mock_hyper_phase :
  let r := run mock_hyper_phase 1 (Some 0) caller_heap in
  r.1 = Ok 6 ∧
  r.2 !! 0 = Some (Collection [2] {["phase1" := 2]}) ∧
  r.2 !! 2 = Some (Result {["image" := 1]}) ∧
  r.2 !! 3 = Some (Collection [4; 6] {["phase1" := 4; "test_phase" := 6]}) ∧
  r.2 !! 6 = Some (Result {["hyper_galaxy" := 7]}).
Proof. vm_compute. by repeat split. Qed.

(** Without a collection from the caller the phase gets a new one. *)
Example run_mock_hyper_phase_none :
  let r := run mock_hyper_phase 1 None caller_heap in
  r.1 = Ok 4 ∧ r.2 !! 3 = Some (Collection [4] {["test_phase" := 4]}) ∧
  r.2 !! 4 = Some (Result {["hyper_galaxy" := 5]}).
Proof. vm_compute. by repeat split. Qed.


End Witnesses.

(** ** More laws, and the numbers that keep them *)

Module MoreLaws.

#[export] Instance Qc_add_zero : AddZero Qc.
Proof. intros a. simpl. apply Qcplus_0_r. Qed.

#[export] Instance real_add_zero : AddZero Rdefinitions.R.
Proof.
  intros a. simpl. rewrite RMicromega.Q2R_0. apply RIneq.Rplus_0_r.
Qed.

(** In binary64 the sum of [-0.0] and [0.0] is [0.0]. *)
Remark float_not_add_zero : ¬ AddZero float.
Proof.
  intros Hzero. pose proof (fadd_zero_r (-0)%float) as Hsum.
  apply (f_equal Prim2SF) in Hsum. vm_compute in Hsum. discriminate Hsum.
Qed.

End MoreLaws.

(** ** The mock phase returns results *)

Module MoreMockFacts.
Import PyState Hyper HyperClosed HyperMocks.

Lemma mock_run_returns_result : returns_result mock_run.
Proof.
  intros data c h (lst & d & Hc). unfold mock_run, alloc.
  pose proof (is_fresh (dom h)) as Hfresh.
  assert (∀ x o, h !! x = Some o → x ≠ fresh (dom h)) as Hne.
  { intros x o Hx ->. apply Hfresh, elem_of_dom. by exists o. }
  eexists _, _. split; [done|]. split; [|split].
  - exists lst, d. rewrite lookup_insert_ne; [done|]. intros Heq.
    by apply (Hne c _ Hc).
  - exists ∅. by rewrite lookup_insert_eq.
  - intros x [attrs Hx]. exists attrs. rewrite lookup_insert_ne; [done|].
    intros Heq. by apply (Hne x _ Hx).
Qed.

Lemma caller_heap_closed : closed caller_heap.
Proof. apply (bool_decide_unpack _). by vm_compute. Qed.

End MoreMockFacts.

(** ** More statements at concrete inputs *)

Module MoreWitnesses.
Import Fixtures MoreFixtures Laws MoreLaws.
Import Array2 Convolution Linear.

(** *** The chi-squared term *)

(** A model of one pixel is broadcast over an image of two. *)
Example chi_sq_broadcast :
  Fitting.compute_chi_sq_term image2 noise2 [1.0]%float = Ok 4%float.
Proof. reflexivity. Qed.

(** Zero noise under a residual: the term is infinite, and not negative. *)
Example chi_sq_zero_noise :
  Fitting.compute_chi_sq_term image2 [0.0; 1.0]%float model2 = Ok infinity.
Proof. reflexivity. Qed.

Lemma compute_chi_sq_term_not_negative_witness :
  Fitting.compute_chi_sq_term image2 [0.0; 1.0]%float model2 = Ok infinity ∧
  PrimFloat.ltb infinity 0 = false.
Proof.
  split; [reflexivity|].
  apply (FloatFacts.compute_chi_sq_term_not_negative image2 [0.0; 1.0]%float model2).
  reflexivity.
Defined.

Lemma compute_chi_sq_term_perfect_fit_witness :
  length noise2 = length image2 ∧
  Forall (λ x, FloatClass.isfinite x = true) image2 ∧
  Forall (λ n, FloatClass.nonzero_number n = true) noise2 ∧
  Fitting.compute_chi_sq_term image2 noise2 image2 = Ok 0%float.
Proof.
  assert (Forall (λ x, FloatClass.isfinite x = true) image2) as Himage
    by (repeat constructor).
  assert (Forall (λ n, FloatClass.nonzero_number n = true) noise2) as Hnoise
    by (repeat constructor).
  split; [reflexivity|]. split; [exact Himage|]. split; [exact Hnoise|].
  apply (FloatFacts.compute_chi_sq_term_perfect_fit image2 noise2);
    [reflexivity|exact Himage|exact Hnoise].
Defined.

Lemma compute_chi_sq_term_app_witness :
  ExactSemiring Qc ∧
  length noise3 = length image3 ∧ length model3 = length image3 ∧
  length ones9 = length ones9 ∧
  ∃ chi_sq1 chi_sq2,
    Fitting.compute_chi_sq_term image3 noise3 model3 = Ok chi_sq1 ∧
    Fitting.compute_chi_sq_term ones9 ones9 ones9 = Ok chi_sq2 ∧
    Fitting.compute_chi_sq_term (image3 ++ ones9) (noise3 ++ ones9)
      (model3 ++ ones9) = Ok (fadd chi_sq1 chi_sq2).
Proof.
  split; [exact Qc_exact|]. split; [reflexivity|]. split; [reflexivity|].
  split; [reflexivity|].
  apply (FittingShapeFacts.compute_chi_sq_term_app Qc_exact
           image3 noise3 model3 ones9 ones9 ones9); reflexivity.
Defined.

(** *** Hyper-galaxies *)

Import FittingHyper.

Example generate_contributions2 :
  generate_contributions model3 galaxy_images3 hyper_galaxies2 minimum_values2
  = Ok contributions2.
Proof. Witnesses.qc_eq. Qed.

Lemma generate_contributions_by_position_witness :
  generate_contributions model3 galaxy_images3 hyper_galaxies2 minimum_values2
  = Ok contributions2 ∧
  length contributions2
  = Nat.min (length hyper_galaxies2)
      (Nat.min (length galaxy_images3) (length minimum_values2)).
Proof.
  split; [exact generate_contributions2|].
  exact (proj1 (FittingHyperFacts.generate_contributions_by_position
                  model3 galaxy_images3 hyper_galaxies2 minimum_values2
                  contributions2 generate_contributions2)).
Defined.

Example scaled_noises_of_contributions2 :
  map2 (λ hyper contribution, compute_scaled_noise hyper noise3 contribution)
       hyper_galaxies2 contributions2 = Ok scaled_noises2.
Proof. Witnesses.qc_eq. Qed.

Lemma generate_scaled_noise_pixels_witness :
  map2 (λ hyper contribution, compute_scaled_noise hyper noise3 contribution)
       hyper_galaxies2 contributions2 = Ok scaled_noises2 ∧
  Forall (λ s, length s = length noise3) scaled_noises2 ∧
  generate_scaled_noise noise3 contributions2 hyper_galaxies2
  = Ok (imap (scaled_noise_pixel scaled_noises2) noise3).
Proof.
  assert (Forall (λ s, length s = length noise3) scaled_noises2) as Hlen
    by (repeat constructor).
  split; [exact scaled_noises_of_contributions2|]. split; [exact Hlen|].
  exact (FittingHyperFacts.generate_scaled_noise_pixels noise3 contributions2
           hyper_galaxies2 scaled_noises2 scaled_noises_of_contributions2 Hlen).
Defined.

(** The scaled noise of the three pixels: 1 + (1 + 0), 1/2 + (0 + 1),
    2 + (1 + 0). *)
Example generate_scaled_noise3 :
  generate_scaled_noise noise3 contributions2 hyper_galaxies2
  = Ok [q 2 1; q 3 2; q 3 1].
Proof. Witnesses.qc_eq. Qed.

Lemma fit_without_hyper_galaxies_witness :
  AddZero Rdefinitions.R ∧
  (no_hyper_galaxies = [] ∨ [model2R] = [] ∨ [Rdefinitions.Q2R 0] = []) ∧
  fit_data_with_profiles_hyper_galaxies Rpower.ln Rtrigo1.PI image2R noise2R
    identity_convolver tracer1 () model2R [model2R] [Rdefinitions.Q2R 0]
    no_hyper_galaxies
  = FittingHeap.fit_data_with_profiles_value Rpower.ln Rtrigo1.PI image2R noise2R
      identity_convolver tracer1 ().
Proof.
  split; [exact real_add_zero|]. split; [by left|].
  apply (FittingHyperFacts.fit_without_hyper_galaxies Rpower.ln Rtrigo1.PI
           real_add_zero). by left.
Defined.

(** *** Blurring a mapping matrix *)

Lemma convolve_mapping_matrix_column_witness :
  wf mapping3x2 ∧ wf mapping3x1 ∧ shape0 mapping3x2 = shape0 mapping3x1 ∧
  0 < shape1 mapping3x2 ∧ 0 < shape1 mapping3x1 ∧
  frames_ok (shape0 mapping3x2) frames3 = true ∧
  (∀ i, get mapping3x2 i 0 = get mapping3x1 i 0) ∧
  ∃ blurred1 blurred2,
    convolve_mapping_matrix frames3 mapping3x2 = Ok blurred1 ∧
    convolve_mapping_matrix frames3 mapping3x1 = Ok blurred2 ∧
    ∀ v, get blurred1 v 0 = get blurred2 v 0.
Proof.
  assert (wf mapping3x2) as Hwf1 by (split; [reflexivity|repeat constructor]).
  assert (wf mapping3x1) as Hwf2 by (split; [reflexivity|repeat constructor]).
  assert (0 < shape1 mapping3x2) as Hp1 by (simpl; lia).
  assert (0 < shape1 mapping3x1) as Hp2 by (simpl; lia).
  assert (∀ i, get mapping3x2 i 0 = get mapping3x1 i 0) as Hcol
    by (by intros [|[|[|i]]]).
  split; [exact Hwf1|]. split; [exact Hwf2|]. split; [reflexivity|].
  split; [exact Hp1|]. split; [exact Hp2|]. split; [reflexivity|].
  split; [exact Hcol|].
  exact (ConvolutionMoreFacts.convolve_mapping_matrix_column frames3
           mapping3x2 mapping3x1 0 0 Hwf1 Hwf2 eq_refl Hp1 Hp2 eq_refl Hcol).
Defined.

Lemma frames3_agree (i j : nat) (value : Qc) :
  get mapping3x2 i j = Ok value → fgt value (lit 0) = true →
  image_frame_indexes frames3 !! i = image_frame_indexes frames3_other !! i ∧
  image_frame_kernels frames3 !! i = image_frame_kernels frames3_other !! i ∧
  image_frame_lengths frames3 !! i = image_frame_lengths frames3_other !! i.
Proof.
  destruct i as [|[|[|i]]]; [by repeat split..| |by destruct j as [|[|j]]].
  destruct j as [|[|j]]; intros Hget Hpos; try discriminate Hget;
    vm_compute in Hget; injection Hget as <-; discriminate Hpos.
Qed.

Lemma convolve_mapping_matrix_frames_read_witness :
  (∀ i j value, get mapping3x2 i j = Ok value → fgt value (lit 0) = true →
     image_frame_indexes frames3 !! i = image_frame_indexes frames3_other !! i ∧
     image_frame_kernels frames3 !! i = image_frame_kernels frames3_other !! i ∧
     image_frame_lengths frames3 !! i = image_frame_lengths frames3_other !! i) ∧
  convolve_mapping_matrix frames3 mapping3x2
  = convolve_mapping_matrix frames3_other mapping3x2.
Proof.
  split; [exact frames3_agree|].
  exact (ConvolutionMoreFacts.convolve_mapping_matrix_frames_read frames3
           frames3_other mapping3x2 frames3_agree).
Defined.

Lemma mapping2x2_float_nowhere_positive : nowhere_positive mapping2x2_float.
Proof.
  intros [|[|i]] [|[|j]] value Hget; vm_compute in Hget;
    try discriminate Hget; by injection Hget as <-.
Qed.

Lemma convolve_mapping_matrix_nowhere_positive_witness :
  wf mapping2x2_float ∧ nowhere_positive mapping2x2_float ∧
  convolve_mapping_matrix no_frames mapping2x2_float
  = Ok (zeros (shape0 mapping2x2_float) (shape1 mapping2x2_float)).
Proof.
  assert (wf mapping2x2_float) as Hwf by (split; [reflexivity|repeat constructor]).
  split; [exact Hwf|]. split; [exact mapping2x2_float_nowhere_positive|].
  exact (ConvolutionMoreFacts.convolve_mapping_matrix_nowhere_positive no_frames
           mapping2x2_float Hwf mapping2x2_float_nowhere_positive).
Defined.

Lemma mapping3x2_fractions_non_negative : non_negative mapping3x2_fractions.
Proof.
  intros [|[|[|i]]] [|[|j]] value Hget; simpl in Hget;
    try discriminate Hget; injection Hget as <-;
    first [by left | right; Witnesses.qc_eq].
Qed.

(** The blurred identity of the three pixels, and its product with the
    mapping matrix. *)
Example blurred_identity3 :
  convolve_mapping_matrix frames3 (identity 3)
  = Ok (mk_ndarray2 3 3 [[q 1 2; q 1 4; q 0 1]; [q 1 4; q 1 2; q 1 4];
                         [q 0 1; q 1 4; q 1 2]]).
Proof. Witnesses.qc_eq. Qed.

Example blurred_mapping3x2_fractions :
  convolve_mapping_matrix frames3 mapping3x2_fractions
  = Ok (mk_ndarray2 3 2 [[q 5 8; q 1 8]; [q 1 2; q 3 4]; [q 1 8; q 9 8]]).
Proof. Witnesses.qc_eq. Qed.

Lemma convolve_mapping_matrix_is_product_witness :
  ExactSemiring Qc ∧ ZeroTest Qc ∧
  wf mapping3x2_fractions ∧ non_negative mapping3x2_fractions ∧
  frames_ok (shape0 mapping3x2_fractions) frames3 = true ∧
  ∃ psf blurred,
    convolve_mapping_matrix frames3 (identity (shape0 mapping3x2_fractions)) = Ok psf ∧
    convolve_mapping_matrix frames3 mapping3x2_fractions = Ok blurred ∧
    matmul psf mapping3x2_fractions = Ok blurred.
Proof.
  assert (wf mapping3x2_fractions) as Hwf
    by (split; [reflexivity|repeat constructor]).
  split; [exact Qc_exact|]. split; [exact Qc_zero_test|]. split; [exact Hwf|].
  split; [exact mapping3x2_fractions_non_negative|]. split; [reflexivity|].
  exact (ConvolutionMoreFacts.convolve_mapping_matrix_is_product Qc_exact Qc_zero_test
           frames3 mapping3x2_fractions Hwf mapping3x2_fractions_non_negative
           eq_refl).
Defined.

(** *** Attributes of a hyper phase *)

Import HyperAttr.

(** A hyper phase around a phase with one attribute: the phase is object 0,
    the hyper phase object 1. *)
Example getattr_through_hyper_phase :
  let phase := {| ob_type := PlainCls ["run"]%string;
                  ob_dict := {["phase_name"%string := 7]} |} in
  let r := HyperPhase 0 5 {[ 0 := phase ]} in
  r.1 = Ok 1 ∧
  getattr object_names 1000 r.2 1 "phase_name" = Ok (InstanceAttr 7) ∧
  getattr object_names 1000 r.2 1 "run" = Ok (TypeAttr 1 "run") ∧
  getattr object_names 1000 r.2 1 "optimizer" = Raise AttributeError.
Proof. vm_compute. by repeat split. Qed.

Lemma getattr_without_phase_witness :
  ("phase"%string ∉ object_names) ∧
  blank_hyper_phase !! 0 = Some {| ob_type := HyperPhaseCls; ob_dict := ∅ |} ∧
  getattr object_names 1000 blank_hyper_phase 0 "__setstate__" = Raise RecursionError.
Proof.
  assert ("phase"%string ∉ object_names) as Hnot.
  { apply (bool_decide_unpack _). by vm_compute. }
  split; [exact Hnot|]. split; [reflexivity|].
  apply (HyperAttrFacts.getattr_without_phase object_names blank_hyper_phase 0
           {| ob_type := HyperPhaseCls; ob_dict := ∅ |} "__setstate__" 1000 Hnot);
    reflexivity.
Defined.

(** *** Runs of a hyper phase *)

Import PyState Hyper HyperClosed HyperMocks MoreMockFacts.

Lemma caller_collection : is_collection caller_heap 0.
Proof. by exists [2], {["phase1"%string := 2]}. Qed.


Lemma run_not_implemented_witness :
  closed caller_heap ∧ is_collection caller_heap 0 ∧
  returns_result (phase_run (phase abstract_hyper_phase)) ∧
  (run abstract_hyper_phase 1 (Some 0) caller_heap).1 = Raise NotImplementedError.
Proof.
  split; [exact caller_heap_closed|]. split; [exact caller_collection|].
  split; [exact mock_run_returns_result|].
  apply (HyperRunFacts.run_not_implemented abstract_hyper_phase 1 (Some 0)
           caller_heap caller_heap_closed);
    [|exact mock_run_returns_result|reflexivity].
  intros r [= <-]. exact caller_collection.
Defined.


End MoreWitnesses.
